(** * Tic-tac-toe: game-state model, validators, players and engine

    A shallow embedding of [tic_tac_toe/logic/models.py],
    [tic_tac_toe/logic/validators.py], [tic_tac_toe/game/players.py] and
    [tic_tac_toe/game/engine.py], with the properties of the design
    document stated and settled against it.

    Python values are kept as the code has them: a [str] is a sequence of
    code points, an [int] is a [Z], a raised exception is the [Raise] side
    of a result, and the regular expressions of the source are read by a
    small matcher for the fragment the source uses. *)

From Stdlib Require Import List ZArith NArith Bool Lia String Ascii FMapPositive Sorted.
Import ListNotations.

Local Open Scope Z_scope.

(** ** Python strings *)

Module Py.

(** A character is its Unicode code point. *)
Definition char := N.
Definition str := list char.

Definition chr (a : ascii) : char := N_of_ascii a.

(** A literal of ASCII characters, read as a Python [str]. *)
Definition lit (s : string) : str := List.map chr (list_ascii_of_string s).

Definition LF : char := 10%N.
Definition TAB : char := 9%N.
Definition c_X : char := Eval compute in chr "X".
Definition c_O : char := Eval compute in chr "O".
Definition c_space : char := Eval compute in chr " ".
Definition c_qmark : char := Eval compute in chr "?".
Definition c_dot : char := Eval compute in chr ".".

Definition char_eqb (a b : char) : bool := N.eqb a b.

(** [s.count(c)] for a pattern of one character. *)
Fixpoint count (s : str) (c : char) : Z :=
  match s with
  | [] => 0
  | d :: s' => (if char_eqb d c then 1 else 0) + count s' c
  end.

(** [s.replace(old, new)] for a pattern [old] of one character. *)
Fixpoint replace (s : str) (old : char) (new : str) : str :=
  match s with
  | [] => []
  | c :: s' =>
      if char_eqb c old then new ++ replace s' old new
      else c :: replace s' old new
  end.

Definition len (s : str) : Z := Z.of_nat (List.length s).

(** The bound of a slice, clamped as [s[i:j]] clamps it: a negative bound
    counts from the end, and both ends stay within [0, len s]. *)
Definition slice_bound (s : str) (i : Z) : nat :=
  Z.to_nat (if i <? 0 then Z.max 0 (i + len s) else Z.min i (len s)).

(** [s[:i]] and [s[i:]]. *)
Definition slice_to (s : str) (i : Z) : str := firstn (slice_bound s i) s.
Definition slice_from (s : str) (i : Z) : str := skipn (slice_bound s i) s.

End Py.

Import Py.

(** ** Exceptions and results *)

(** Modelled from the spec: the classes [InvalidGameState], [InvalidMove]
    and [UnknownGameScore] of [tic_tac_toe/logic/exceptions.py], which is
    not among the sources, as three kinds of error that differ from one
    another and from Python's own [ValueError] and [IndexError], the two
    other exceptions the modelled code raises. *)
Inductive exn : Type :=
| ValueError
| IndexError
| InvalidGameState
| InvalidMove
| UnknownGameScore.

Inductive result (A : Type) : Type :=
| Ok (a : A)
| Raise (e : exn).

Arguments Ok {A} a.
Arguments Raise {A} e.

Definition bind {A B : Type} (r : result A) (k : A -> result B) : result B :=
  match r with
  | Ok a => k a
  | Raise e => Raise e
  end.

Declare Scope result_scope.
Delimit Scope result_scope with result.
Notation "x <- r ;; k" := (bind r (fun x => k))
  (at level 61, r at next level, right associativity) : result_scope.
Notation "r ;;; k" := (bind r (fun _ => k))
  (at level 61, right associativity) : result_scope.
Local Open Scope result_scope.

(** [s[i]]: a negative index counts from the end; outside [-len, len) it
    raises [IndexError]. *)
Definition getitem (s : str) (i : Z) : result char :=
  let j := if i <? 0 then i + len s else i in
  if (j <? 0) || (len s <=? j) then Raise IndexError
  else match nth_error s (Z.to_nat j) with
       | Some c => Ok c
       | None => Raise IndexError
       end.

(** ** The fragment of [re] the source uses *)

Module Re.

(** An item of a character class: one character, or [\s]. *)
Inductive item : Type :=
| Chr (c : char)
| Ws.

(** One position of a pattern: [.], a single item, or a class [[...]]. *)
Inductive atom : Type :=
| Dot
| One (i : item)
| Cls (l : list item).

(** [\s] on a [str] pattern: the characters for which [str.isspace]
    holds, the ASCII ones first. *)
Definition is_space (c : char) : bool :=
  (if c <? 128 then
     if c <=? 13 then 9 <=? c
     else if c <=? 32 then 28 <=? c
     else false
   else
     (c =? 133) || (c =? 160) || (c =? 5760)
     || (8192 <=? c) && (c <=? 8202)
     || (c =? 8232) || (c =? 8233) || (c =? 8239) || (c =? 8287)
     || (c =? 12288))%N.

Definition item_matches (i : item) (c : char) : bool :=
  match i with
  | Chr d => char_eqb c d
  | Ws => is_space c
  end.

(** A class matches when one of its items does, tried left to right. *)
Fixpoint class_matches (l : list item) (c : char) : bool :=
  match l with
  | [] => false
  | i :: l' => if item_matches i c then true else class_matches l' c
  end.

(** [.] matches every character but the newline (no DOTALL flag). *)
Definition atom_matches (a : atom) (c : char) : bool :=
  match a with
  | Dot => negb (char_eqb c LF)
  | One i => item_matches i c
  | Cls l => class_matches l c
  end.

(** [$] without MULTILINE: the end of the string, or just before a
    newline that ends the string. *)
Definition at_dollar (rest : str) : bool :=
  match rest with
  | [] => true
  | [c] => char_eqb c LF
  | _ => false
  end.

(** [re.match(p, s)] as a truth value, for a pattern [p] that is a
    sequence of one-character atoms, closed by [$] when [dollar] is set.
    The match is anchored at the start of [s] (a leading [^] adds
    nothing to [re.match]). *)
Fixpoint match_ (p : list atom) (dollar : bool) (s : str) : bool :=
  match p with
  | [] => if dollar then at_dollar s else true
  | a :: p' =>
      match s with
      | [] => false
      | c :: s' => if atom_matches a c then match_ p' dollar s' else false
      end
  end.

(** [[m.start() for m in re.finditer(a, s)]] for a pattern of one atom. *)
Fixpoint finditer_from (a : atom) (pos : Z) (s : str) : list Z :=
  match s with
  | [] => []
  | c :: s' =>
      if atom_matches a c then pos :: finditer_from a (pos + 1) s'
      else finditer_from a (pos + 1) s'
  end.

Definition finditer (a : atom) (s : str) : list Z := finditer_from a 0 s.

(** The atom a character stands for in a pattern string made of [.] and
    plain characters.  The winning patterns are such strings once [?] has
    been replaced. *)
Definition atom_of (q : char) : atom :=
  if char_eqb q c_dot then Dot else One (Chr q).

Definition compile (p : str) : list atom := List.map atom_of p.

(** [re.match(p, s)] as a truth value for such a pattern string, read
    character by character as the match proceeds. *)
Fixpoint match_str (p : str) (s : str) : bool :=
  match p with
  | [] => true
  | q :: p' =>
      match s with
      | [] => false
      | c :: s' => if atom_matches (atom_of q) c then match_str p' s' else false
      end
  end.

End Re.

(** ** models.py *)

Definition WINNING_PATTERNS : list str := Eval compute in
  [ lit "???......";
    lit "...???...";
    lit "......???";
    lit "?..?..?..";
    lit ".?..?..?.";
    lit "..?..?..?";
    lit "?...?...?";
    lit "..?.?.?.." ].

Inductive Mark : Type :=
| CROSS
| NAUGHT.

(** A [Mark] is a [str]: its value. *)
Definition Mark_value (m : Mark) : str :=
  match m with
  | CROSS => [c_X]
  | NAUGHT => [c_O]
  end.

(** [for mark in Mark]: the members in declaration order. *)
Definition Marks : list Mark := [CROSS; NAUGHT].

Definition other (self : Mark) : Mark :=
  match self with
  | NAUGHT => CROSS
  | CROSS => NAUGHT
  end.

Definition Mark_eqb (a b : Mark) : bool :=
  match a, b with
  | CROSS, CROSS | NAUGHT, NAUGHT => true
  | _, _ => false
  end.

(** [a == b] on strings. *)
Fixpoint str_eqb (a b : str) : bool :=
  match a, b with
  | [], [] => true
  | c :: a', d :: b' => if char_eqb c d then str_eqb a' b' else false
  | _, _ => false
  end.

Record Grid : Type := mkGrid { cells : str }.

(** validators.py, [validate_grid]: [re.match(r"^[\sXO]{9}$", grid.cells)]. *)
Definition grid_class : list Re.item := [Re.Ws; Re.Chr c_X; Re.Chr c_O].

Definition grid_pattern : list Re.atom := repeat (Re.Cls grid_class) 9.

Definition validate_grid (grid : Grid) : result unit :=
  if negb (Re.match_ grid_pattern true (cells grid)) then Raise ValueError
  else Ok tt.

(** [Grid(cells)]: the dataclass constructor followed by [__post_init__]. *)
Definition Grid_new (cs : str) : result Grid :=
  let self := mkGrid cs in
  validate_grid self ;;; Ok self.

Definition x_count (self : Grid) : Z := count (cells self) c_X.
Definition o_count (self : Grid) : Z := count (cells self) c_O.
Definition empty_count (self : Grid) : Z := count (cells self) c_space.

Record GameState : Type := mkGameState { grid : Grid; starting_mark : Mark }.

Definition current_mark (self : GameState) : Mark :=
  if x_count (grid self) =? o_count (grid self) then starting_mark self
  else other (starting_mark self).

Definition game_not_started (self : GameState) : bool :=
  empty_count (grid self) =? 9.

(** A [for] loop whose body may [return]: the first iteration that returns
    decides, and [None] means the loop ran to its end. *)
Fixpoint for_return {A B : Type} (l : list A) (body : A -> option B) : option B :=
  match l with
  | [] => None
  | a :: l' =>
      match body a with
      | Some b => Some b
      | None => for_return l' body
      end
  end.

Definition pattern_matches (pattern : str) (mark : Mark) (cs : str) : bool :=
  Re.match_str (replace pattern c_qmark (Mark_value mark)) cs.

Definition winner (self : GameState) : option Mark :=
  for_return WINNING_PATTERNS (fun pattern =>
    for_return Marks (fun mark =>
      if pattern_matches pattern mark (cells (grid self)) then Some mark
      else None)).

Definition winning_cells (self : GameState) : list Z :=
  match
    for_return WINNING_PATTERNS (fun pattern =>
      for_return Marks (fun mark =>
        if pattern_matches pattern mark (cells (grid self))
        then Some (Re.finditer (Re.One (Re.Chr c_qmark)) pattern)
        else None))
  with
  | Some l => l
  | None => []
  end.

Definition is_none {A : Type} (o : option A) : bool :=
  match o with None => true | Some _ => false end.

(** [winner is None and empty_count == 0]; [and] and [or] evaluate their
    right operand only when the left one does not decide. *)
Definition tie (self : GameState) : bool :=
  if is_none (winner self) then empty_count (grid self) =? 0 else false.

Definition game_over (self : GameState) : bool :=
  if negb (is_none (winner self)) then true else tie self.

(** ** validators.py *)

Definition validate_number_of_marks (g : Grid) : result unit :=
  if Z.abs (x_count g - o_count g) >? 1 then Raise InvalidGameState
  else Ok tt.

Definition validate_starting_mark (g : Grid) (sm : Mark) : result unit :=
  if x_count g >? o_count g then
    if negb (str_eqb (Mark_value sm) [c_X]) then Raise InvalidGameState
    else Ok tt
  else if o_count g >? x_count g then
    if negb (str_eqb (Mark_value sm) [c_O]) then Raise InvalidGameState
    else Ok tt
  else Ok tt.

(** [winner == "X"] where [winner] is a mark or [None]. *)
Definition winner_is (w : option Mark) (s : str) : bool :=
  match w with
  | Some m => str_eqb (Mark_value m) s
  | None => false
  end.

Definition validate_winner (g : Grid) (sm : Mark) (w : option Mark) : result unit :=
  if winner_is w [c_X] then
    if str_eqb (Mark_value sm) [c_X] then
      if x_count g <=? o_count g then Raise InvalidGameState else Ok tt
    else
      if negb (x_count g =? o_count g) then Raise InvalidGameState else Ok tt
  else if winner_is w [c_O] then
    if str_eqb (Mark_value sm) [c_O] then
      if o_count g <=? x_count g then Raise InvalidGameState else Ok tt
    else
      if negb (o_count g =? x_count g) then Raise InvalidGameState else Ok tt
  else Ok tt.

Definition validate_game_state (gs : GameState) : result unit :=
  validate_number_of_marks (grid gs) ;;;
  validate_starting_mark (grid gs) (starting_mark gs) ;;;
  validate_winner (grid gs) (starting_mark gs) (winner gs).

(** [GameState(grid, starting_mark)]: constructor and [__post_init__]. *)
Definition GameState_new (g : Grid) (sm : Mark) : result GameState :=
  let self := mkGameState g sm in
  validate_game_state self ;;; Ok self.

(** ** Moves *)

Record Move : Type := mkMove {
  mark : Mark;
  cell_index : Z;
  before_state : GameState;
  after_state : GameState
}.

Definition make_move_to (self : GameState) (index : Z) : result Move :=
  c <- getitem (cells (grid self)) index ;;
  if negb (char_eqb c c_space) then Raise InvalidMove
  else
    g <- Grid_new (slice_to (cells (grid self)) index
                   ++ Mark_value (current_mark self)
                   ++ slice_from (cells (grid self)) (index + 1)) ;;
    after <- GameState_new g (starting_mark self) ;;
    Ok (mkMove (current_mark self) index self after).

(** The loop of [possible_moves]: [moves.append(self.make_move_to(i))] for
    each position, in order; the first exception ends it. *)
Fixpoint collect_moves (self : GameState) (positions : list Z) : result (list Move) :=
  match positions with
  | [] => Ok []
  | i :: rest =>
      m <- make_move_to self i ;;
      ms <- collect_moves self rest ;;
      Ok (m :: ms)
  end.

Definition possible_moves (self : GameState) : result (list Move) :=
  if negb (game_over self)
  then collect_moves self (Re.finditer (Re.One Re.Ws) (cells (grid self)))
  else Ok [].

Definition evaluate_score (self : GameState) (mark : Mark) : result Z :=
  if game_over self then
    if tie self then Ok 0
    else match winner self with
         | Some w => if Mark_eqb w mark then Ok 1 else Ok (-1)
         | None => Ok (-1)
         end
  else Raise UnknownGameScore.

Definition random_choice {A : Type} (r : nat) (l : list A) : result A :=
  match l with
  | [] => Raise IndexError
  | _ :: _ =>
      match nth_error l (r mod List.length l) with
      | Some a => Ok a
      | None => Raise IndexError
      end
  end.

(** [make_random_move]: [r] is the draw [random.choice] makes.  The [try]
    block turns an [IndexError] (the empty list) into [None]; any other
    exception goes on to the caller. *)
Definition make_random_move (self : GameState) (r : nat) : result (option Move) :=
  match (ms <- possible_moves self ;; random_choice r ms) with
  | Ok m => Ok (Some m)
  | Raise IndexError => Ok None
  | Raise e => Raise e
  end.

(** ** minimax.py *)

Module Minimax.

(** A search that may run out of its recursion budget: [None] is the
    budget spent, [Some r] the result of the Python call. *)
Definition run (A : Type) : Type := option (result A).

(** Modelled from the spec: the recursive calls of the absent
    [tic_tac_toe/logic/minimax.py] are made one after the other; [collect]
    gives their values in order, and the first call that does not return
    a value ends the evaluation. *)
Fixpoint collect (rs : list (run Z)) : run (list Z) :=
  match rs with
  | [] => Some (Ok [])
  | None :: _ => None
  | Some (Raise e) :: _ => Some (Raise e)
  | Some (Ok v) :: rs' =>
      match collect rs' with
      | Some (Ok vs) => Some (Ok (v :: vs))
      | other => other
      end
  end.

(** Modelled from the spec: the aggregation of the absent
    [tic_tac_toe/logic/minimax.py], [max(values)] or [min(values)];
    Python raises [ValueError] on no value at all. *)
Definition extreme (highest : bool) (values : list Z) : result Z :=
  match values with
  | [] => Raise ValueError
  | v :: vs => Ok (fold_left (if highest then Z.max else Z.min) vs v)
  end.

(** Modelled from the spec: [tic_tac_toe/logic/minimax.py] is not among
    the sources.  [minimax state maximizing] is the value of [state] for
    the mark under optimisation, which is fixed for the whole search: at
    a finished game the score [evaluate_score] gives for that mark,
    otherwise the values of the after-states of the possible moves, taken
    in order with [maximizing] flipped, aggregated with [max] when it is
    the turn of the mark under optimisation in this branch (the spec's
    [choose_highest_score]) and with [min] otherwise. *)
Fixpoint minimax (fuel : nat) (mark_under_optimization : Mark)
    (state : GameState) (maximizing : bool) : run Z :=
  match fuel with
  | O => None
  | S fuel' =>
      if game_over state then Some (evaluate_score state mark_under_optimization)
      else
        match possible_moves state with
        | Raise e => Some (Raise e)
        | Ok moves =>
            let choose_highest_score :=
              Mark_eqb (current_mark state) mark_under_optimization in
            match collect (List.map (fun m =>
                             minimax fuel' mark_under_optimization
                               (after_state m) (negb maximizing)) moves) with
            | None => None
            | Some (Raise e) => Some (Raise e)
            | Some (Ok values) => Some (extreme choose_highest_score values)
            end
        end
  end.

(** Modelled from the spec: the choice among the scored moves in the
    absent [tic_tac_toe/logic/minimax.py], the first move of the largest
    value ("first extreme value found wins"). *)
Definition first_max (scored : list (Move * Z)) : option Move :=
  match scored with
  | [] => None
  | mv :: rest =>
      Some (fst (fold_left
                   (fun best mv' => if snd mv' >? snd best then mv' else best)
                   rest mv))
  end.

(** Modelled from the spec: [find_best_move] of the absent
    [tic_tac_toe/logic/minimax.py].  It optimises for the mark that is to
    move in [game_state], values each possible move by [minimax] on its
    after-state with [maximizing = False], and returns the move of the
    largest value, the first one met among equals; no move at all when
    none is possible. *)
Definition find_best_move (fuel : nat) (game_state : GameState) : run (option Move) :=
  match possible_moves game_state with
  | Raise e => Some (Raise e)
  | Ok moves =>
      match collect (List.map (fun m =>
                       minimax fuel (current_mark game_state)
                         (after_state m) false) moves) with
      | None => None
      | Some (Raise e) => Some (Raise e)
      | Some (Ok values) => Some (Ok (first_max (combine moves values)))
      end
  end.

End Minimax.

(** ** players.py *)

(** The two computer players.  The console player, which reads its moves
    from the keyboard, is left to the front end. *)
Inductive ComputerPlayer : Type :=
| RandomComputerPlayer (mark : Mark)
| MinimaxComputerPlayer (mark : Mark).

Definition player_mark (self : ComputerPlayer) : Mark :=
  match self with
  | RandomComputerPlayer m | MinimaxComputerPlayer m => m
  end.

(** [get_computer_move]; [r] is the draw of the random module, [fuel] the
    recursion budget of the search. *)
Definition get_computer_move (self : ComputerPlayer) (fuel : nat)
    (game_state : GameState) (r : nat) : Minimax.run (option Move) :=
  match self with
  | RandomComputerPlayer _ => Some (make_random_move game_state r)
  | MinimaxComputerPlayer _ =>
      if game_not_started game_state then Some (make_random_move game_state r)
      else Minimax.find_best_move fuel game_state
  end.

(** [ComputerPlayer.get_move]: the delay has no effect on the result. *)
Definition get_move (self : ComputerPlayer) (fuel : nat)
    (game_state : GameState) (r : nat) : Minimax.run (option Move) :=
  get_computer_move self fuel game_state r.

(** [Player.make_move]. *)
Definition make_move (self : ComputerPlayer) (fuel : nat)
    (game_state : GameState) (r : nat) : Minimax.run GameState :=
  if Mark_eqb (player_mark self) (current_mark game_state) then
    match get_move self fuel game_state r with
    | None => None
    | Some (Raise e) => Some (Raise e)
    | Some (Ok (Some move)) => Some (Ok (after_state move))
    | Some (Ok None) => Some (Raise InvalidMove)
    end
  else Some (Raise InvalidMove).

(** ** engine.py *)

Record TicTacToe : Type := mkTicTacToe {
  player1 : ComputerPlayer;
  player2 : ComputerPlayer
}.

Definition validate_players (p1 p2 : ComputerPlayer) : result unit :=
  if Mark_eqb (player_mark p1) (player_mark p2) then Raise ValueError
  else Ok tt.

Definition TicTacToe_new (p1 p2 : ComputerPlayer) : result TicTacToe :=
  validate_players p1 p2 ;;; Ok (mkTicTacToe p1 p2).

Definition get_current_player (self : TicTacToe) (game_state : GameState)
    : ComputerPlayer :=
  if Mark_eqb (current_mark game_state) (player_mark (player1 self))
  then player1 self
  else player2 self.

(** The [while True] loop of [play], [fuel] rounds of it at most.  The
    result is the state the loop ends on, the last one rendered.  Round
    [t] draws [rnd t]; an [InvalidMove] is handed to the error handler
    and the round is played again on the same state. *)
Fixpoint play_loop (self : TicTacToe) (rnd : nat -> nat) (fuel : nat)
    (t : nat) (game_state : GameState) : Minimax.run GameState :=
  match fuel with
  | O => None
  | S fuel' =>
      if game_over game_state then Some (Ok game_state)
      else
        match make_move (get_current_player self game_state) fuel
                game_state (rnd t) with
        | None => None
        | Some (Ok next) => play_loop self rnd fuel' (S t) next
        | Some (Raise InvalidMove) => play_loop self rnd fuel' (S t) game_state
        | Some (Raise e) => Some (Raise e)
        end
  end.

Definition play (self : TicTacToe) (rnd : nat -> nat) (fuel : nat)
    (starting_mark : Mark) : Minimax.run GameState :=
  match (g <- Grid_new (repeat c_space 9) ;; GameState_new g starting_mark) with
  | Raise e => Some (Raise e)
  | Ok game_state => play_loop self rnd fuel 0 game_state
  end.

(** [GameState(Grid(cells), starting_mark)]. *)
Definition GameState_of (cs : str) (sm : Mark) : result GameState :=
  g <- Grid_new cs ;; GameState_new g sm.

(** The minimax player against itself, one instance per mark. *)
Definition minimax_vs_minimax : TicTacToe :=
  mkTicTacToe (MinimaxComputerPlayer CROSS) (MinimaxComputerPlayer NAUGHT).

(** ** The winning lines as the design document reads them *)

(** The character of a mark. *)
Definition mark_char (m : Mark) : char :=
  match m with
  | CROSS => c_X
  | NAUGHT => c_O
  end.

(** The eight winning lines as index triples: three rows, three columns,
    two diagonals. *)
Definition WINNING_LINES : list (list Z) :=
  [ [0; 1; 2]; [3; 4; 5]; [6; 7; 8];
    [0; 3; 6]; [1; 4; 7]; [2; 5; 8];
    [0; 4; 8]; [2; 4; 6] ].

(** All positions of [line] hold the mark [m]. *)
Definition line_held (cs : str) (m : Mark) (line : list Z) : bool :=
  forallb (fun i => match getitem cs i with
                    | Ok c => char_eqb c (mark_char m)
                    | Raise _ => false
                    end) line.

(** The first line, and for it the first mark, whose positions all hold
    that mark. *)
Definition first_held_line (cs : str) : option (list Z * Mark) :=
  for_return WINNING_LINES (fun line =>
    for_return Marks (fun m =>
      if line_held cs m line then Some (line, m) else None)).

(** A cell sequence of nine cells, each a cross, a naught or a space. *)
Definition plain_cell (c : char) : bool :=
  char_eqb c c_X || char_eqb c c_O || char_eqb c c_space.

Definition plain (cs : str) : bool :=
  (List.length cs =? 9)%nat && forallb plain_cell cs.

(** [s] with position [i] overwritten by [c]: what
    [s[:i] + c + s[i+1:]] builds for an index within [s]. *)
Definition set_at (i : nat) (c : char) (s : str) : str :=
  firstn i s ++ c :: skipn (S i) s.

(** ** Notions the statements use *)

(** The cell sequences [validate_grid] lets through. *)
Definition grid_ok (cs : str) : Prop := Re.match_ grid_pattern true cs = true.

(** What [validate_game_state] lets through. *)
Record consistent (gs : GameState) : Prop := {
  marks_balanced : Z.abs (x_count (grid gs) - o_count (grid gs)) <= 1;
  cross_started : x_count (grid gs) > o_count (grid gs) -> starting_mark gs = CROSS;
  naught_started : o_count (grid gs) > x_count (grid gs) -> starting_mark gs = NAUGHT;
  cross_won :
    winner gs = Some CROSS ->
    if Mark_eqb (starting_mark gs) CROSS
    then x_count (grid gs) > o_count (grid gs)
    else x_count (grid gs) = o_count (grid gs);
  naught_won :
    winner gs = Some NAUGHT ->
    if Mark_eqb (starting_mark gs) NAUGHT
    then o_count (grid gs) > x_count (grid gs)
    else o_count (grid gs) = x_count (grid gs)
}.

(** The position of the cell sequence an index addresses. *)
Definition position (cs : str) (index : Z) : nat :=
  Z.to_nat (if index <? 0 then index + len cs else index).

(** The state [make_move_to] builds when it writes at position [i]. *)
Definition moved (gs : GameState) (i : nat) : GameState :=
  mkGameState
    (mkGrid (set_at i (mark_char (current_mark gs)) (cells (grid gs))))
    (starting_mark gs).

(** The state [play] starts from: the empty grid. *)
Definition initial (sm : Mark) : GameState :=
  mkGameState (mkGrid (repeat c_space 9)) sm.

(** The move that opens the game at cell [k]. *)
Definition opening_move (sm : Mark) (k : nat) : Move :=
  mkMove sm (Z.of_nat k) (initial sm) (moved (initial sm) k).

(** ** A table of minimax values

    The search of [Minimax.minimax] meets the same state along many lines
    of play.  To run it on whole games, the values are tabulated once per
    state, the table is checked entry by entry against one step of the
    search, and the games are then played off the table. *)

Module Table.

(** A table entry: the cells of a state, its value for cross and its value
    for naught. *)
Definition entry : Type := (str * (Z * Z))%type.

Definition t : Type := PositiveMap.t entry.

(** The key of a cell sequence: two bits per cell. *)
Definition key (cs : str) : positive :=
  fold_left (fun p c => if char_eqb c c_X then p~0~1
                        else if char_eqb c c_O then p~1~0
                        else p~0~0)%positive cs 1%positive.

(** The values the table holds for a state; none when the state is not in
    the table. *)
Definition lookup (T : t) (s : GameState) : option (Z * Z) :=
  match PositiveMap.find (key (cells (grid s))) T with
  | Some (cs, v) => if str_eqb cs (cells (grid s)) then Some v else None
  | None => None
  end.

Fixpoint lookups (T : t) (states : list GameState) : option (list (Z * Z)) :=
  match states with
  | [] => Some []
  | s :: rest =>
      match lookup T s, lookups T rest with
      | Some v, Some vs => Some (v :: vs)
      | _, _ => None
      end
  end.

Definition value_for (mk : Mark) (v : Z * Z) : Z :=
  match mk with
  | CROSS => fst v
  | NAUGHT => snd v
  end.

(** The values of a state whose game is not over, from the values the
    table holds for the after-states of its moves. *)
Definition values_of_moves (T : t) (s : GameState) (moves : list Move)
    : option (Z * Z) :=
  match lookups T (List.map after_state moves) with
  | Some vs =>
      match Minimax.extreme (Mark_eqb (current_mark s) CROSS)
              (List.map (value_for CROSS) vs),
            Minimax.extreme (Mark_eqb (current_mark s) NAUGHT)
              (List.map (value_for NAUGHT) vs) with
      | Ok a, Ok b => Some (a, b)
      | _, _ => None
      end
  | None => None
  end.

(** One step of the search at a state, the recursive calls read off the
    table. *)
Definition node_values (T : t) (s : GameState) : option (Z * Z) :=
  if game_over s then
    match evaluate_score s CROSS, evaluate_score s NAUGHT with
    | Ok a, Ok b => Some (a, b)
    | _, _ => None
    end
  else
    match possible_moves s with
    | Ok moves => values_of_moves T s moves
    | Raise _ => None
    end.

Definition pair_eqb (a b : Z * Z) : bool :=
  (fst a =? fst b) && (snd a =? snd b).

(** An entry agrees with one step of the search. *)
Definition entry_ok (T : t) (sm : Mark) (e : entry) : bool :=
  match node_values T (mkGameState (mkGrid (fst e)) sm) with
  | Some v => pair_eqb v (snd e)
  | None => false
  end.

Definition check (T : t) (sm : Mark) : bool :=
  forallb (fun ke => entry_ok T sm (snd ke)) (PositiveMap.elements T).

(** Filling the table: the states below [s], each one once. *)
Fixpoint fill (fuel : nat) (T : t) (s : GameState) : t :=
  match fuel with
  | O => T
  | S fuel' =>
      let k := key (cells (grid s)) in
      match PositiveMap.find k T with
      | Some _ => T
      | None =>
          if game_over s then
            match node_values T s with
            | Some v => PositiveMap.add k (cells (grid s), v) T
            | None => T
            end
          else
            match possible_moves s with
            | Ok moves =>
                let T' := fold_left (fun T0 m => fill fuel' T0 (after_state m))
                            moves T in
                match values_of_moves T' s moves with
                | Some v => PositiveMap.add k (cells (grid s), v) T'
                | None => T'
                end
            | Raise _ => T
            end
      end
  end.

(** The table of the game that [sm] starts. *)
Definition build (sm : Mark) : t :=
  fill 10 (PositiveMap.empty entry) (initial sm).

(** [find_best_move] off the table. *)
Definition find_best (T : t) (gs : GameState) : option (option Move) :=
  match possible_moves gs with
  | Ok moves =>
      match lookups T (List.map after_state moves) with
      | Some vs =>
          Some (Minimax.first_max
                  (combine moves (List.map (value_for (current_mark gs)) vs)))
      | None => None
      end
  | Raise _ => None
  end.

(** The loop of [play] between two minimax players once the game has
    started, the moves found off the table; [None] whenever the table
    does not decide. *)
Fixpoint play_loop (T : t) (fuel : nat) (gs : GameState) : option GameState :=
  match fuel with
  | O => None
  | S fuel' =>
      if game_over gs then Some gs
      else if game_not_started gs then None
      else if negb (empty_count (grid gs) <=? Z.of_nat fuel) then None
      else
        match find_best T gs with
        | Some (Some move) =>
            if Mark_eqb (starting_mark (after_state move)) (starting_mark gs)
            then play_loop T fuel' (after_state move)
            else None
        | _ => None
        end
  end.

(** The game that opens at cell [k] ends in a tie. *)
Definition ties_from (T : t) (sm : Mark) (k : nat) : bool :=
  match play_loop T 9 (moved (initial sm) k) with
  | Some final => tie final && is_none (winner final)
  | None => false
  end.

(** The table of the game that [sm] starts is right, and off it the nine
    openings all end in a tie. *)
Definition self_play_ties (sm : Mark) : bool :=
  let T := build sm in
  check T sm && forallb (ties_from T sm) (seq 0 9).

(** The table gives the values the search computes, whatever budget
    above the number of empty cells the search is given. *)
Definition sound (T : t) (sm : Mark) : Prop :=
  forall s v, starting_mark s = sm -> lookup T s = Some v ->
  forall fuel mk maximizing,
    empty_count (grid s) < Z.of_nat fuel ->
    Minimax.minimax fuel mk s maximizing = Some (Ok (value_for mk v)).

End Table.

(** ** Well-formed states *)

(** A state as legal play builds it: nine cells of cross, naught and
    space that pass the validation of the game state. *)
Definition well_formed (gs : GameState) : Prop :=
  plain (cells (grid gs)) = true /\ consistent gs.

(** ** frontends/console/players.py *)

Module Console.

(** [s.lstrip()] and [s.strip()]: white space is what [str.isspace]
    holds for. *)
Fixpoint lstrip (s : str) : str :=
  match s with
  | [] => []
  | c :: s' => if Re.is_space c then lstrip s' else s
  end.

Definition strip (s : str) : str := rev (lstrip (rev (lstrip s))).

(** [a, b = s]: a string unpacks into its characters, and into two names
    only when it has two of them; Python raises [ValueError] otherwise. *)
Definition unpack2 (s : str) : result (char * char) :=
  match s with
  | [a; b] => Ok (a, b)
  | _ => Raise ValueError
  end.

(** [int(c)] for a string of one ASCII character.  The decimal digits of
    other scripts, which [int] reads as well, are not let through by the
    patterns of [grid_to_index]. *)
Definition int_of_char (c : char) : result Z :=
  if ((48 <=? c) && (c <=? 57))%N then Ok (Z.of_N c - 48)
  else Raise ValueError.

(** [c.upper()] for an ASCII character, all that the patterns of
    [grid_to_index] let through. *)
Definition upper (c : char) : char :=
  if ((97 <=? c) && (c <=? 122))%N then (c - 32)%N else c.

Definition ord (c : char) : Z := Z.of_N c.

Definition letters : Re.atom :=
  Re.Cls (List.map Re.Chr (lit "abcABC")).

Definition digits : Re.atom :=
  Re.Cls (List.map Re.Chr (lit "123")).

Definition index_of (row col : char) : result Z :=
  r <- int_of_char row ;;
  Ok (3 * (r - 1) + (ord (upper col) - ord (chr "A"))).

Definition grid_to_index (grid : str) : result Z :=
  if Re.match_ [letters; digits] false grid then
    p <- unpack2 grid ;; let (col, row) := p in index_of row col
  else if Re.match_ [digits; letters] false grid then
    p <- unpack2 grid ;; let (row, col) := p in index_of row col
  else Raise ValueError.

(** What the player sees: the prompt of [input], and the lines printed. *)
Inductive event : Type :=
| Prompted (mark : Mark)
| Printed (text : str).

(** How [get_move] ends: it returns, an exception of the game goes on to
    the caller, or [input] meets the end of the input ([EOFError]). *)
Inductive outcome : Type :=
| Returned (move : option Move)
| Raised (e : exn)
| EndOfInput.

Definition bad_coordinates : str :=
  lit "Please provide coordinates in the form of A1 or 1A".

Definition cell_occupied : str := lit "That cell is already occupied.".

(** [ConsolePlayer.get_move].  [inputs] holds the lines the player types,
    one per call of [input]; the result is how the call ends, the lines
    left unread and what the player saw, in order. *)
Fixpoint get_move (mark : Mark) (game_state : GameState) (inputs : list str)
    : outcome * list str * list event :=
  if negb (game_over game_state) then
    match inputs with
    | [] => (EndOfInput, [], [Prompted mark])
    | line :: rest =>
        match grid_to_index (strip line) with
        | Raise ValueError =>
            let '(o, unread, seen) := get_move mark game_state rest in
            (o, unread, Prompted mark :: Printed bad_coordinates :: seen)
        | Raise e => (Raised e, rest, [Prompted mark])
        | Ok index =>
            match make_move_to game_state index with
            | Ok move => (Returned (Some move), rest, [Prompted mark])
            | Raise InvalidMove =>
                let '(o, unread, seen) := get_move mark game_state rest in
                (o, unread, Prompted mark :: Printed cell_occupied :: seen)
            | Raise e => (Raised e, rest, [Prompted mark])
            end
        end
    end
  else (Returned None, inputs, []).

(** A line the loop of [get_move] accepts: coordinates of a cell on which
    the move goes through. *)
Definition accepted (game_state : GameState) (line : str) (move : Move) : Prop :=
  exists index,
    grid_to_index (strip line) = Ok index /\
    make_move_to game_state index = Ok move.

(** What the player sees for a line that is not accepted. *)
Definition refusal (mark : Mark) (line : str) : list event :=
  [ Prompted mark;
    Printed (match grid_to_index (strip line) with
             | Ok _ => cell_occupied
             | Raise _ => bad_coordinates
             end) ].

End Console.

(** ** frontends/console/renderers.py *)

Module Renderer.

Definition ESC : char := 27%N.

(** [print(text)], and [print] with an empty [end], on the standard
    output. *)
Definition print (out text : str) : str := out ++ text ++ [LF].
Definition print_no_end (out text : str) : str := out ++ text.

Definition clear_screen (out : str) : str := print_no_end out (ESC :: lit "c").

Definition blink (text : str) : str :=
  (ESC :: lit "[5m") ++ text ++ (ESC :: lit "[0m").

(** [list(cells)] for a string: its characters, each a string. *)
Definition list_of (cs : str) : list str := List.map (fun c => [c]) cs.

(** [l[i]] and [l[i] = v] on a list: a negative index counts from the
    end, and an index outside the list raises [IndexError]. *)
Definition list_index (l : list str) (i : Z) : result nat :=
  let n := Z.of_nat (List.length l) in
  let j := if i <? 0 then i + n else i in
  if (j <? 0) || (n <=? j) then Raise IndexError else Ok (Z.to_nat j).

Definition list_getitem (l : list str) (i : Z) : result str :=
  j <- list_index l i ;;
  match nth_error l j with
  | Some v => Ok v
  | None => Raise IndexError
  end.

Definition list_setitem (l : list str) (i : Z) (v : str) : result (list str) :=
  j <- list_index l i ;;
  Ok (firstn j l ++ v :: skipn (S j) l).

(** The loop of [print_blinking] over the positions. *)
Fixpoint blink_cells (mutable_cells : list str) (positions : list Z)
    : result (list str) :=
  match positions with
  | [] => Ok mutable_cells
  | position :: rest =>
      old <- list_getitem mutable_cells position ;;
      cells' <- list_setitem mutable_cells position (blink old) ;;
      blink_cells cells' rest
  end.

(** The characters of the frame. *)
Definition dotted_bar : char := 9478%N.
Definition bar : char := 9474%N.
Definition dash : char := 9472%N.
Definition cross_bars : char := 9532%N.

(** A piece of a format string: plain text, or a field [{n}]. *)
Inductive piece : Type :=
| Text (t : str)
| Field (n : nat).

Definition separator : str := lit " " ++ [bar] ++ lit " ".

Definition rule : str :=
  lit "  " ++ [dotted_bar] ++ lit " "
  ++ [dash; dash; dash; cross_bars; dash; dash; dash; cross_bars; dash; dash; dash]
  ++ [LF].

Definition row (label : string) (n : nat) : list piece :=
  [ Text (lit label ++ lit " " ++ [dotted_bar] ++ lit "  ");
    Field n; Text separator; Field (n + 1); Text separator; Field (n + 2);
    Text [LF] ].

(** The template of [print_solid] once [textwrap.dedent] has taken the
    margin of eight spaces off its lines and emptied the last one. *)
Definition template : list piece :=
  [ Text (lit "     A   B   C" ++ [LF]);
    Text (lit "   ------------" ++ [LF]) ]
  ++ row "1" 0 ++ [Text rule] ++ row "2" 3 ++ [Text rule] ++ row "3" 6.

(** [str.format] with [args] as its positional arguments: a field past
    the arguments raises [IndexError]. *)
Fixpoint format (pieces : list piece) (args : list str) : result str :=
  match pieces with
  | [] => Ok []
  | Text t :: rest => tail <- format rest args ;; Ok (t ++ tail)
  | Field n :: rest =>
      match nth_error args n with
      | Some a => tail <- format rest args ;; Ok (a ++ tail)
      | None => Raise IndexError
      end
  end.

Definition print_solid (out : str) (cells : list str) : result str :=
  text <- format template cells ;; Ok (print out text).

Definition print_blinking (out : str) (cells : str) (positions : list Z)
    : result str :=
  mutable_cells <- blink_cells (list_of cells) positions ;;
  print_solid out mutable_cells.

Definition party_popper : char := 127881%N.
Definition neutral_face : char := 128528%N.

Section Render.

(** The text an f-string gives for a mark: the value of the mark or the
    name of the member, as the version of Python has it. *)
Variable format_mark : Mark -> str.

(** [ConsoleRenderer.render], as what it adds to the standard output. *)
Definition render (out : str) (game_state : GameState) : result str :=
  let out := clear_screen out in
  match winner game_state with
  | Some w =>
      out <- print_blinking out (cells (grid game_state))
               (winning_cells game_state) ;;
      Ok (print out (format_mark w ++ lit " wins " ++ [party_popper]))
  | None =>
      out <- print_solid out (list_of (cells (grid game_state))) ;;
      if tie game_state
      then Ok (print out (lit "No one wins this time " ++ [neutral_face]))
      else Ok out
  end.

End Render.

End Renderer.

(** ** The game at the console

    [cli.main] runs [TicTacToe(player1, player2, ConsoleRenderer())] and
    its [play]; here both players are console players and no error
    handler is given, as in [main]. *)

Module Session.

(** What reaches the standard output: the text of one call of [render],
    and what a console player sees. *)
Inductive shown : Type :=
| Rendered (text : str)
| Seen (e : Console.event).

(** How [Player.make_move] ends for a console player. *)
Inductive reply : Type :=
| Moved (next : GameState)
| Raising (e : exn)
| NoInput.

(** How [play] ends: the loop breaks on the state it holds, an exception
    leaves it, or [input] meets the end of the input. *)
Inductive ending : Type :=
| Finished (final : GameState)
| Failed (e : exn)
| InputEnded (game_state : GameState).

(** Two console players, each known by its mark. *)
Record TicTacToe : Type := mkTicTacToe {
  player1 : Mark;
  player2 : Mark
}.

Definition TicTacToe_new (p1 p2 : Mark) : result TicTacToe :=
  if Mark_eqb p1 p2 then Raise ValueError else Ok (mkTicTacToe p1 p2).

Definition get_current_player (self : TicTacToe) (game_state : GameState) : Mark :=
  if Mark_eqb (current_mark game_state) (player1 self)
  then player1 self
  else player2 self.

(** [Player.make_move] with [ConsolePlayer.get_move]. *)
Definition make_move (mark : Mark) (game_state : GameState) (inputs : list str)
    : reply * list str * list Console.event :=
  if Mark_eqb mark (current_mark game_state) then
    match Console.get_move mark game_state inputs with
    | (Console.Returned (Some move), unread, seen) =>
        (Moved (after_state move), unread, seen)
    | (Console.Returned None, unread, seen) => (Raising InvalidMove, unread, seen)
    | (Console.Raised e, unread, seen) => (Raising e, unread, seen)
    | (Console.EndOfInput, unread, seen) => (NoInput, unread, seen)
    end
  else (Raising InvalidMove, inputs, []).

Section Play.

Variable format_mark : Mark -> str.

(** The [while True] loop of [play], [fuel] rounds of it at most: how it
    ends, the lines left unread and what was shown, in order.  An
    [InvalidMove] is dropped, there being no error handler, and the loop
    goes on with the same state. *)
Fixpoint play_loop (self : TicTacToe) (fuel : nat) (game_state : GameState)
    (inputs : list str) : option (ending * list str * list shown) :=
  match fuel with
  | O => None
  | S fuel' =>
      match Renderer.render format_mark [] game_state with
      | Raise e => Some (Failed e, inputs, [])
      | Ok text =>
          if game_over game_state
          then Some (Finished game_state, inputs, [Rendered text])
          else
            let '(r, unread, seen) :=
              make_move (get_current_player self game_state) game_state inputs in
            let round := Rendered text :: List.map Seen seen in
            let go_on (next : GameState) :=
              match play_loop self fuel' next unread with
              | Some (e, unread', later) => Some (e, unread', round ++ later)
              | None => None
              end in
            match r with
            | Moved next => go_on next
            | Raising InvalidMove => go_on game_state
            | Raising e => Some (Failed e, unread, round)
            | NoInput => Some (InputEnded game_state, unread, round)
            end
      end
  end.

Definition play (self : TicTacToe) (fuel : nat) (starting_mark : Mark)
    (inputs : list str) : option (ending * list str * list shown) :=
  match GameState_of (repeat c_space 9) starting_mark with
  | Raise e => Some (Failed e, inputs, [])
  | Ok game_state => play_loop self fuel game_state inputs
  end.

End Play.

End Session.

(** * Properties *)

(** ** Results *)

Lemma bind_Ok {A B : Type} (r : result A) (k : A -> result B) (b : B) :
  bind r k = Ok b -> exists a, r = Ok a /\ k a = Ok b.
Proof.
  destruct r as [a | e]; simpl; intros H; [eauto | discriminate].
Qed.

Ltac inv_bind H :=
  let a := fresh "a" in
  let Ha := fresh "Ha" in
  apply bind_Ok in H; destruct H as (a & Ha & H).

(** ** Strings: indexing, slicing, counting *)

Section Strings.

Variable s : str.

Lemma len_nonneg : 0 <= len s.
Proof. unfold len. lia. Qed.

Lemma getitem_nonneg (i : Z) (c : char) :
  0 <= i -> getitem s i = Ok c ->
  i < len s /\ nth_error s (Z.to_nat i) = Some c.
Proof.
  intros Hi. unfold getitem. cbv zeta.
  destruct (Z.ltb_spec i 0); [lia |].
  destruct (Z.ltb_spec i 0); [lia |]. simpl.
  destruct (Z.leb_spec (len s) i); [discriminate |].
  destruct (nth_error s (Z.to_nat i)); [| discriminate].
  intros [= ->]. split; [lia | reflexivity].
Qed.

Lemma getitem_neg (i : Z) (c : char) :
  i < 0 -> getitem s i = Ok c ->
  0 <= i + len s /\ nth_error s (Z.to_nat (i + len s)) = Some c.
Proof.
  intros Hi. unfold getitem. cbv zeta.
  destruct (Z.ltb_spec i 0); [| lia].
  destruct (Z.ltb_spec (i + len s) 0); [discriminate |]. simpl.
  destruct (Z.leb_spec (len s) (i + len s)); [discriminate |].
  destruct (nth_error s (Z.to_nat (i + len s))); [| discriminate].
  intros [= ->]. split; [lia | reflexivity].
Qed.

Lemma getitem_of_nth (i : Z) (c : char) :
  0 <= i -> nth_error s (Z.to_nat i) = Some c -> getitem s i = Ok c.
Proof.
  intros Hi Hn. unfold getitem.
  assert (Hlt : (Z.to_nat i < List.length s)%nat)
    by (apply nth_error_Some; congruence).
  cbv zeta.
  destruct (Z.ltb_spec i 0); [lia |].
  destruct (Z.ltb_spec i 0); [lia |]. simpl.
  destruct (Z.leb_spec (len s) i); [unfold len in *; lia |].
  rewrite Hn. reflexivity.
Qed.

Lemma getitem_too_large (i : Z) : len s <= i -> getitem s i = Raise IndexError.
Proof.
  intros Hi. unfold getitem. pose proof len_nonneg. cbv zeta.
  destruct (Z.ltb_spec i 0); [lia |].
  destruct (Z.ltb_spec i 0); [lia |]. simpl.
  destruct (Z.leb_spec (len s) i); [reflexivity | lia].
Qed.

Lemma slice_to_nonneg (i : Z) :
  0 <= i < len s -> slice_to s i = firstn (Z.to_nat i) s.
Proof.
  intros Hi. unfold slice_to, slice_bound.
  destruct (Z.ltb_spec i 0); [lia |]. do 2 f_equal. lia.
Qed.

Lemma slice_from_succ (i : Z) :
  0 <= i < len s -> slice_from s (i + 1) = skipn (S (Z.to_nat i)) s.
Proof.
  intros Hi. unfold slice_from, slice_bound.
  destruct (Z.ltb_spec (i + 1) 0); [lia |]. f_equal. lia.
Qed.

Lemma slice_to_neg (i : Z) :
  i < 0 -> 0 <= i + len s -> slice_to s i = firstn (Z.to_nat (i + len s)) s.
Proof.
  intros Hi Hj. unfold slice_to, slice_bound.
  destruct (Z.ltb_spec i 0); [| lia]. do 2 f_equal. lia.
Qed.

Lemma slice_from_succ_neg (i : Z) :
  i + 1 < 0 -> 0 <= i + len s ->
  slice_from s (i + 1) = skipn (S (Z.to_nat (i + len s))) s.
Proof.
  intros Hi Hj. unfold slice_from, slice_bound.
  destruct (Z.ltb_spec (i + 1) 0); [| lia]. f_equal. lia.
Qed.

Lemma slice_from_zero : slice_from s 0 = s.
Proof.
  unfold slice_from, slice_bound. simpl. pose proof len_nonneg.
  replace (Z.to_nat (Z.min 0 (len s))) with 0%nat by lia. reflexivity.
Qed.

End Strings.

Lemma count_app (a b : str) (c : char) : count (a ++ b) c = count a c + count b c.
Proof.
  induction a as [| d a IH]; simpl; [reflexivity | rewrite IH; lia].
Qed.

Lemma count_nonneg (s : str) (c : char) : 0 <= count s c.
Proof.
  induction s as [| d s IH]; simpl; [lia | destruct (char_eqb d c); lia].
Qed.

Lemma set_at_length (i : nat) (c : char) (s : str) :
  (i < List.length s)%nat -> List.length (set_at i c s) = List.length s.
Proof.
  intros Hi. unfold set_at. rewrite length_app, length_firstn.
  cbn [List.length]. rewrite length_skipn. lia.
Qed.

Lemma nth_error_set_at_same (i : nat) (c : char) (s : str) :
  (i < List.length s)%nat -> nth_error (set_at i c s) i = Some c.
Proof.
  intros Hi. unfold set_at.
  rewrite nth_error_app2; rewrite length_firstn; [| lia].
  replace (i - Nat.min i (List.length s))%nat with 0%nat by lia. reflexivity.
Qed.

Lemma nth_error_set_at_other (i j : nat) (c : char) (s : str) :
  (i < List.length s)%nat -> j <> i ->
  nth_error (set_at i c s) j = nth_error s j.
Proof.
  intros Hi Hj. unfold set_at.
  destruct (Nat.lt_ge_cases j i) as [Hlt | Hge].
  - rewrite nth_error_app1 by (rewrite length_firstn; lia).
    rewrite nth_error_firstn.
    destruct (Nat.ltb_spec j i); [reflexivity | lia].
  - rewrite nth_error_app2 by (rewrite length_firstn; lia).
    rewrite length_firstn.
    replace (j - Nat.min i (List.length s))%nat with (S (j - S i)) by lia.
    cbn [nth_error]. rewrite nth_error_skipn. f_equal. lia.
Qed.

Lemma count_set_at (i : nat) (c d k : char) (s : str) :
  nth_error s i = Some d ->
  count (set_at i c s) k =
  count s k - (if char_eqb d k then 1 else 0) + (if char_eqb c k then 1 else 0).
Proof.
  intros Hn. unfold set_at.
  rewrite <- (firstn_skipn i s) at 3.
  rewrite !count_app.
  assert (Hs : skipn i s = d :: skipn (S i) s).
  { clear c k. revert i Hn. induction s as [| e s' IH]; intros [| i] Hn;
      simpl in *; try discriminate.
    - congruence.
    - apply IH. exact Hn. }
  rewrite Hs. simpl. lia.
Qed.

(** ** The matcher *)

Lemma match_length (p : list Re.atom) (s : str) :
  Re.match_ p true s = true ->
  List.length s = List.length p \/ List.length s = S (List.length p).
Proof.
  revert s. induction p as [| a p IH]; intros s H.
  - destruct s as [| c [| d s]]; simpl in *; auto; discriminate.
  - destruct s as [| c s]; simpl in H; [discriminate |].
    destruct (Re.atom_matches a c); [| discriminate].
    cbn [List.length]. destruct (IH _ H) as [E | E]; rewrite E; auto.
Qed.

(** Overwriting a position with a character its atom accepts keeps a match. *)
Lemma match_set_at (p : list Re.atom) (d : bool) (s : str) (i : nat) (c : char) :
  Re.match_ p d s = true ->
  (forall a, nth_error p i = Some a -> Re.atom_matches a c = true) ->
  (i < List.length p)%nat ->
  Re.match_ p d (set_at i c s) = true.
Proof.
  revert s i. induction p as [| a p IH]; intros s i H Ha Hi; simpl in Hi; [lia |].
  destruct s as [| e s]; simpl in H; [discriminate |].
  destruct (Re.atom_matches a e) eqn:He; [| discriminate].
  destruct i as [| i].
  - unfold set_at. simpl. rewrite (Ha a eq_refl). exact H.
  - change (set_at (S i) c (e :: s)) with (e :: set_at i c s).
    simpl. rewrite He. apply IH; [exact H | | lia].
    intros b Hb. apply Ha. exact Hb.
Qed.

(** A match of the overwritten string is a match of the original one when
    every atom that accepts the new character accepts the old one. *)
Lemma match_set_at_back (p : list Re.atom) (s : str) (i : nat) (c e : char) :
  Re.match_ p false (set_at i c s) = true ->
  nth_error s i = Some e ->
  (forall a, nth_error p i = Some a ->
             Re.atom_matches a c = true -> Re.atom_matches a e = true) ->
  Re.match_ p false s = true.
Proof.
  revert s i. induction p as [| a p IH]; intros s i H Hn Ha; [reflexivity |].
  destruct s as [| f s]; [destruct i; discriminate |].
  destruct i as [| i].
  - unfold set_at in H. simpl in H, Hn. injection Hn as ->. simpl.
    destruct (Re.atom_matches a c) eqn:Hc; [| discriminate].
    rewrite (Ha a eq_refl Hc). exact H.
  - change (set_at (S i) c (f :: s)) with (f :: set_at i c s) in H.
    simpl in H |- *. destruct (Re.atom_matches a f); [| discriminate].
    apply (IH s i H Hn). intros b Hb. apply Ha. exact Hb.
Qed.

(** Reading the pattern string while matching is matching the compiled
    pattern. *)
Lemma match_str_compile (p s : str) :
  Re.match_str p s = Re.match_ (Re.compile p) false s.
Proof.
  revert s. induction p as [| q p IH]; intros s; [reflexivity |].
  destruct s as [| c s]; [reflexivity |].
  cbn [Re.match_str Re.compile List.map Re.match_]. rewrite IH. reflexivity.
Qed.

(** ** Grids *)

Lemma Grid_new_Ok (cs : str) (g : Grid) :
  Grid_new cs = Ok g <-> grid_ok cs /\ g = mkGrid cs.
Proof.
  unfold Grid_new, validate_grid, grid_ok. cbn [cells].
  destruct (Re.match_ grid_pattern true cs); cbn [negb bind]; split.
  - intros [= <-]. auto.
  - intros [_ ->]. reflexivity.
  - discriminate.
  - intros [? _]. discriminate.
Qed.

Lemma Grid_new_Raise (cs : str) (e : exn) :
  Grid_new cs = Raise e -> e = ValueError /\ Re.match_ grid_pattern true cs = false.
Proof.
  unfold Grid_new, validate_grid. cbn [cells].
  destruct (Re.match_ grid_pattern true cs); cbn [negb bind]; [discriminate |].
  intros [= <-]. auto.
Qed.

Lemma grid_ok_length (cs : str) :
  grid_ok cs -> List.length cs = 9%nat \/ List.length cs = 10%nat.
Proof. intros H. apply match_length in H. exact H. Qed.

Lemma grid_ok_set_at (cs : str) (i : nat) (m : Mark) :
  grid_ok cs -> (i < 9)%nat -> grid_ok (set_at i (mark_char m) cs).
Proof.
  intros H Hi. apply match_set_at; [exact H | | exact Hi].
  intros a Ha.
  assert (a = Re.Cls grid_class) as ->.
  { do 9 (destruct i as [| i]; [simpl in Ha; congruence |]). lia. }
  destruct m; reflexivity.
Qed.

(** ** Loops that return *)

Lemma for_return_Some {A B : Type} (l : list A) (body : A -> option B) (b : B) :
  for_return l body = Some b -> exists a, In a l /\ body a = Some b.
Proof.
  induction l as [| a l IH]; simpl; [discriminate |].
  destruct (body a) eqn:Ha.
  - intros [= ->]. eauto.
  - intros H. destruct (IH H) as (a' & Hin & Hb). eauto.
Qed.

Lemma for_return_None {A B : Type} (l : list A) (body : A -> option B) :
  for_return l body = None -> forall a, In a l -> body a = None.
Proof.
  induction l as [| a l IH]; simpl; [tauto |].
  destruct (body a) eqn:Ha; [discriminate |].
  intros H a' [<- | Hin]; auto.
Qed.

(** ** The winner *)

Lemma Mark_eqb_eq (a b : Mark) : Mark_eqb a b = true <-> a = b.
Proof. destruct a, b; simpl; split; congruence. Qed.

Lemma Mark_eqb_refl (a : Mark) : Mark_eqb a a = true.
Proof. destruct a; reflexivity. Qed.

Lemma other_involutive (m : Mark) : other (other m) = m.
Proof. destruct m; reflexivity. Qed.

Lemma other_neq (m : Mark) : other m <> m.
Proof. destruct m; discriminate. Qed.

Lemma Mark_value_char (m : Mark) : Mark_value m = [mark_char m].
Proof. destruct m; reflexivity. Qed.

Lemma winner_Some_inv (gs : GameState) (k : Mark) :
  winner gs = Some k ->
  exists p, In p WINNING_PATTERNS /\ pattern_matches p k (cells (grid gs)) = true.
Proof.
  unfold winner. intros H.
  apply for_return_Some in H. destruct H as (p & Hp & H).
  apply for_return_Some in H. destruct H as (m & _ & H).
  destruct (pattern_matches p m (cells (grid gs))) eqn:Hm; [| discriminate].
  injection H as <-. eauto.
Qed.

Lemma winner_None_inv (gs : GameState) (p : str) (k : Mark) :
  winner gs = None -> In p WINNING_PATTERNS ->
  pattern_matches p k (cells (grid gs)) = false.
Proof.
  unfold winner. intros H Hp.
  pose proof (for_return_None _ _ H p Hp) as Hk.
  assert (Hin : In k Marks) by (destruct k; simpl; auto).
  pose proof (for_return_None _ _ Hk k Hin) as Hm. simpl in Hm.
  destruct (pattern_matches p k (cells (grid gs))); [discriminate | reflexivity].
Qed.

(** Once [?] is replaced by a mark, a winning pattern is made of [.] and
    of that mark's character. *)
Lemma winning_pattern_atoms (p : str) (k : Mark) :
  In p WINNING_PATTERNS ->
  Forall (fun a => a = Re.Dot \/ a = Re.One (Re.Chr (mark_char k)))
         (Re.compile (replace p c_qmark (Mark_value k))).
Proof.
  intros Hp. simpl in Hp.
  repeat (destruct Hp as [<- | Hp];
          [destruct k; vm_compute;
           repeat first [ apply Forall_nil
                        | apply Forall_cons;
                          [first [left; reflexivity | right; reflexivity] |] ] |]).
  contradiction.
Qed.

Lemma winning_pattern_atom (p : str) (k : Mark) (i : nat) (a : Re.atom) :
  In p WINNING_PATTERNS ->
  nth_error (Re.compile (replace p c_qmark (Mark_value k))) i = Some a ->
  a = Re.Dot \/ a = Re.One (Re.Chr (mark_char k)).
Proof.
  intros Hp Ha. pose proof (@winning_pattern_atoms p k Hp) as HF.
  rewrite Forall_forall in HF. apply HF. eapply nth_error_In. exact Ha.
Qed.

(** A mark written on a space completes lines of its own mark only. *)
Lemma pattern_matches_set_at_back (p : str) (k m : Mark) (cs : str) (i : nat) :
  In p WINNING_PATTERNS -> k <> m ->
  nth_error cs i = Some c_space ->
  pattern_matches p k (set_at i (mark_char m) cs) = true ->
  pattern_matches p k cs = true.
Proof.
  unfold pattern_matches. rewrite !match_str_compile. intros Hp Hk Hn H.
  eapply match_set_at_back; [exact H | exact Hn |].
  intros a Ha. destruct (winning_pattern_atom _ _ _ _ Hp Ha) as [-> | ->].
  - reflexivity.
  - destruct k, m; try congruence; discriminate.
Qed.

Lemma winner_after_move (cs : str) (sm sm' m k : Mark) (i : nat) :
  winner (mkGameState (mkGrid cs) sm) = None ->
  nth_error cs i = Some c_space ->
  winner (mkGameState (mkGrid (set_at i (mark_char m) cs)) sm') = Some k ->
  k = m.
Proof.
  intros Hnone Hn Hw.
  destruct (winner_Some_inv _ _ Hw) as (p & Hp & Hm). cbn [grid cells] in Hm.
  pose proof (fun k' => @winner_None_inv _ p k' Hnone Hp) as Hall.
  cbn [grid cells] in Hall.
  destruct k, m; try reflexivity; exfalso.
  - assert (Hne : CROSS <> NAUGHT) by discriminate.
    pose proof (@pattern_matches_set_at_back _ _ _ _ _ Hp Hne Hn Hm) as Hold.
    rewrite Hall in Hold. discriminate.
  - assert (Hne : NAUGHT <> CROSS) by discriminate.
    pose proof (@pattern_matches_set_at_back _ _ _ _ _ Hp Hne Hn Hm) as Hold.
    rewrite Hall in Hold. discriminate.
Qed.

(** ** Validation of a game state *)

Ltac case_Z :=
  repeat match goal with
    | |- context [Z.gtb ?a ?b] => destruct (Z.gtb_spec a b)
    | |- context [Z.leb ?a ?b] => destruct (Z.leb_spec a b)
    | |- context [Z.eqb ?a ?b] => destruct (Z.eqb_spec a b)
    | H : context [Z.gtb ?a ?b] |- _ => destruct (Z.gtb_spec a b)
    | H : context [Z.leb ?a ?b] |- _ => destruct (Z.leb_spec a b)
    | H : context [Z.eqb ?a ?b] |- _ => destruct (Z.eqb_spec a b)
    end.

Lemma validate_game_state_Ok (gs : GameState) :
  validate_game_state gs = Ok tt <-> consistent gs.
Proof.
  unfold validate_game_state, validate_number_of_marks,
    validate_starting_mark, validate_winner.
  destruct gs as [g sm]. cbn [grid starting_mark].
  split.
  - intros H. constructor; cbn [grid starting_mark];
      generalize dependent (winner (mkGameState g sm));
      generalize (x_count g) (o_count g); intros x o w H;
      destruct sm; destruct w as [[|] |]; cbn in H |- *;
      case_Z; cbn in *; try discriminate; try congruence; try lia.
  - intros [Hb Hx Ho Hwx Hwo]. cbn [grid starting_mark] in *.
    generalize dependent (winner (mkGameState g sm)).
    generalize dependent (o_count g). generalize dependent (x_count g).
    intros x o Hb Hx Ho w Hwx Hwo.
    destruct sm; destruct w as [[|] |]; cbn in *;
      case_Z; cbn in *; try reflexivity; try lia;
      try (specialize (Hx ltac:(lia)); discriminate);
      try (specialize (Ho ltac:(lia)); discriminate);
      try (specialize (Hwx eq_refl); lia);
      try (specialize (Hwo eq_refl); lia).
Qed.

(** ** Moves *)

Lemma move_cells_nonneg (cs : str) (index : Z) (m : Mark) :
  0 <= index < len cs ->
  slice_to cs index ++ Mark_value m ++ slice_from cs (index + 1) =
  set_at (Z.to_nat index) (mark_char m) cs.
Proof.
  intros Hi. rewrite slice_to_nonneg, slice_from_succ, Mark_value_char by exact Hi.
  reflexivity.
Qed.

Lemma move_cells_neg (cs : str) (index : Z) (m : Mark) :
  index + 1 < 0 -> 0 <= index + len cs ->
  slice_to cs index ++ Mark_value m ++ slice_from cs (index + 1) =
  set_at (Z.to_nat (index + len cs)) (mark_char m) cs.
Proof.
  intros Hi Hj.
  rewrite slice_to_neg, slice_from_succ_neg, Mark_value_char by lia.
  reflexivity.
Qed.

Lemma move_cells_last (cs : str) (m : Mark) :
  0 < len cs ->
  List.length (slice_to cs (-1) ++ Mark_value m ++ slice_from cs (-1 + 1)) =
  (2 * List.length cs)%nat.
Proof.
  intros Hl. rewrite slice_to_neg by lia.
  change (-1 + 1) with 0. rewrite slice_from_zero, Mark_value_char.
  rewrite !length_app, length_firstn. cbn [List.length]. unfold len in *. lia.
Qed.

Lemma x_count_set_at (cs : str) (i : nat) (m : Mark) :
  nth_error cs i = Some c_space ->
  count (set_at i (mark_char m) cs) c_X =
  count cs c_X + (if Mark_eqb m CROSS then 1 else 0).
Proof.
  intros Hn. rewrite (count_set_at _ _ _ _ _ Hn). destruct m; simpl; lia.
Qed.

Lemma o_count_set_at (cs : str) (i : nat) (m : Mark) :
  nth_error cs i = Some c_space ->
  count (set_at i (mark_char m) cs) c_O =
  count cs c_O + (if Mark_eqb m NAUGHT then 1 else 0).
Proof.
  intros Hn. rewrite (count_set_at _ _ _ _ _ Hn). destruct m; simpl; lia.
Qed.

(** What a successful [make_move_to] has done. *)
Lemma make_move_to_inv (gs : GameState) (index : Z) (m : Move) :
  grid_ok (cells (grid gs)) ->
  make_move_to gs index = Ok m ->
  let i := position (cells (grid gs)) index in
  nth_error (cells (grid gs)) i = Some c_space /\
  m = mkMove (current_mark gs) index gs (moved gs i) /\
  grid_ok (cells (grid (moved gs i))) /\
  consistent (moved gs i).
Proof.
  intros Hok H. unfold make_move_to in H.
  inv_bind H. rename a into c.
  destruct (char_eqb c c_space) eqn:Hc; cbn [negb] in H; [| discriminate].
  apply N.eqb_eq in Hc. subst c.
  inv_bind H. rename a into g. inv_bind H. rename a into after.
  injection H as <-.
  apply Grid_new_Ok in Ha0. destruct Ha0 as [Hg ->].
  unfold GameState_new in Ha1. inv_bind Ha1. destruct a.
  injection Ha1 as <-. apply validate_game_state_Ok in Ha0.
  pose proof (grid_ok_length _ Hok) as Hlen.
  unfold position. cbv zeta.
  destruct (Z.ltb_spec index 0) as [Hneg | Hpos].
  - apply getitem_neg in Ha; [| exact Hneg]. destruct Ha as [Hj Hn].
    destruct (Z.eq_dec index (-1)) as [-> | Hne].
    + exfalso. apply grid_ok_length in Hg.
      rewrite move_cells_last in Hg by (unfold len; lia). lia.
    + rewrite move_cells_neg in Hg, Ha0 |- * by lia.
      unfold moved. auto.
  - apply getitem_nonneg in Ha; [| exact Hpos]. destruct Ha as [Hj Hn].
    rewrite move_cells_nonneg in Hg, Ha0 |- * by lia.
    unfold moved. auto.
Qed.

(** And when it succeeds, for an index that is not negative. *)
Lemma make_move_to_Ok (gs : GameState) (index : Z) :
  0 <= index ->
  nth_error (cells (grid gs)) (Z.to_nat index) = Some c_space ->
  grid_ok (cells (grid (moved gs (Z.to_nat index)))) ->
  consistent (moved gs (Z.to_nat index)) ->
  make_move_to gs index =
  Ok (mkMove (current_mark gs) index gs (moved gs (Z.to_nat index))).
Proof.
  intros Hpos Hn Hg Hc. unfold make_move_to.
  rewrite (getitem_of_nth _ _ _ Hpos Hn). cbn [bind].
  change (char_eqb c_space c_space) with true. cbn [negb].
  assert (Hlt : (Z.to_nat index < List.length (cells (grid gs)))%nat)
    by (apply nth_error_Some; congruence).
  rewrite move_cells_nonneg by (unfold len; lia).
  assert (HG : Grid_new (set_at (Z.to_nat index) (mark_char (current_mark gs))
                           (cells (grid gs))) = Ok (grid (moved gs (Z.to_nat index)))).
  { apply Grid_new_Ok. split; [exact Hg | reflexivity]. }
  rewrite HG. cbn [bind]. unfold GameState_new.
  apply validate_game_state_Ok in Hc. unfold moved in Hc |- *. cbn [grid] in *.
  rewrite Hc. reflexivity.
Qed.

(** A move made on a consistent state without a winner leaves a
    consistent state. *)
Lemma consistent_moved (gs : GameState) (i : nat) :
  consistent gs -> winner gs = None ->
  nth_error (cells (grid gs)) i = Some c_space ->
  consistent (moved gs i).
Proof.
  intros [Hb Hx Ho _ _] Hw Hn.
  pose proof (x_count_set_at _ i (current_mark gs) Hn) as HX.
  pose proof (o_count_set_at _ i (current_mark gs) Hn) as HO.
  assert (Hwin : forall k, winner (moved gs i) = Some k -> k = current_mark gs).
  { intros k Hk. destruct gs as [[cs] sm].
    eapply winner_after_move; [exact Hw | exact Hn | exact Hk]. }
  assert (Hsm : match starting_mark gs with
                | CROSS => o_count (grid gs) <= x_count (grid gs)
                | NAUGHT => x_count (grid gs) <= o_count (grid gs)
                end).
  { destruct (starting_mark gs).
    - destruct (Z_le_gt_dec (o_count (grid gs)) (x_count (grid gs))) as [H | H];
        [exact H | specialize (Ho H); discriminate].
    - destruct (Z_le_gt_dec (x_count (grid gs)) (o_count (grid gs))) as [H | H];
        [exact H | specialize (Hx H); discriminate]. }
  clear Hx Ho.
  constructor; unfold moved in *; cbn [grid cells starting_mark] in *;
    unfold x_count, o_count in *; cbn [cells] in *;
    try (intros Hk; apply Hwin in Hk; revert Hk);
    rewrite ?HX, ?HO; unfold current_mark, x_count, o_count;
    destruct (Z.eqb_spec (count (cells (grid gs)) c_X) (count (cells (grid gs)) c_O));
    destruct (starting_mark gs); simpl;
    try lia; try discriminate; try reflexivity; try (intros _; lia).
Qed.

(** ** Constructed game states *)

Lemma GameState_new_Ok (g : Grid) (sm : Mark) (gs : GameState) :
  GameState_new g sm = Ok gs <-> consistent (mkGameState g sm) /\ gs = mkGameState g sm.
Proof.
  unfold GameState_new. rewrite <- validate_game_state_Ok.
  destruct (validate_game_state (mkGameState g sm)) as [[] | e]; cbn [bind]; split.
  - intros [= <-]. auto.
  - intros [_ ->]. reflexivity.
  - discriminate.
  - intros [? _]. discriminate.
Qed.

Lemma GameState_of_Ok (cs : str) (sm : Mark) (gs : GameState) :
  GameState_of cs sm = Ok gs <->
  grid_ok cs /\ consistent gs /\ gs = mkGameState (mkGrid cs) sm.
Proof.
  unfold GameState_of. split.
  - intros H. inv_bind H. apply Grid_new_Ok in Ha. destruct Ha as [Hg ->].
    apply GameState_new_Ok in H. destruct H as [Hc ->]. auto.
  - intros (Hg & Hc & ->).
    assert (HG : Grid_new cs = Ok (mkGrid cs)) by (apply Grid_new_Ok; auto).
    rewrite HG. cbn [bind]. apply GameState_new_Ok. auto.
Qed.

(** A space of a valid grid lies among its first nine cells. *)
Lemma match_dollar_last (p : list Re.atom) (s : str) :
  Re.match_ p true s = true -> (List.length p < List.length s)%nat ->
  nth_error s (List.length p) = Some LF.
Proof.
  revert s. induction p as [| a p IH]; intros s H Hl.
  - destruct s as [| c [| d s]]; simpl in *; try lia; try discriminate.
    apply N.eqb_eq in H. congruence.
  - destruct s as [| c s]; simpl in H; [discriminate |].
    destruct (Re.atom_matches a c); [| discriminate].
    simpl in Hl |- *. apply IH; [exact H | lia].
Qed.

Lemma grid_ok_space_position (cs : str) (i : nat) :
  grid_ok cs -> nth_error cs i = Some c_space -> (i < 9)%nat.
Proof.
  intros Hg Hn.
  assert (Hlt : (i < List.length cs)%nat) by (apply nth_error_Some; congruence).
  destruct (grid_ok_length _ Hg) as [Hl | Hl]; [lia |].
  destruct (Nat.eq_dec i 9) as [-> | Hne]; [| lia].
  pose proof (match_dollar_last _ _ Hg) as Hlast.
  change (List.length grid_pattern) with 9%nat in Hlast.
  rewrite Hlast in Hn by lia. discriminate.
Qed.

(** A move on a space of a constructed state without a winner goes
    through. *)
Lemma make_move_to_space (gs : GameState) (index : Z) :
  grid_ok (cells (grid gs)) -> consistent gs -> winner gs = None ->
  0 <= index ->
  nth_error (cells (grid gs)) (Z.to_nat index) = Some c_space ->
  make_move_to gs index =
  Ok (mkMove (current_mark gs) index gs (moved gs (Z.to_nat index))).
Proof.
  intros Hg Hc Hw Hi Hn.
  apply make_move_to_Ok; [exact Hi | exact Hn | |].
  - unfold moved. cbn [grid cells]. apply grid_ok_set_at; [exact Hg |].
    exact (grid_ok_space_position _ _ Hg Hn).
  - apply consistent_moved; assumption.
Qed.

(** ** Turns and moves *)

(** C10 (turn alternation).  On a constructed game state, whenever
    [make_move_to] succeeds the move carries the mark whose turn it was,
    the turn in the after-state is the other mark's, and the turn is the
    starting mark's exactly when the grid holds as many crosses as
    naughts. *)
Theorem turn_alternation (cs : str) (sm : Mark) (gs : GameState) (index : Z) (m : Move) :
  GameState_of cs sm = Ok gs ->
  make_move_to gs index = Ok m ->
  mark m = current_mark gs /\
  current_mark (after_state m) = other (current_mark gs) /\
  (current_mark gs = starting_mark gs <-> x_count (grid gs) = o_count (grid gs)).
Proof.
  intros Hgs Hm.
  apply GameState_of_Ok in Hgs. destruct Hgs as (Hg & Hc & ->).
  apply make_move_to_inv in Hm; [| exact Hg].
  cbv zeta in Hm. destruct Hm as (Hn & -> & _ & _).
  cbn [mark after_state grid cells starting_mark] in *.
  set (gs := mkGameState (mkGrid cs) sm) in *.
  split; [reflexivity |].
  destruct Hc as [Hb Hx Ho _ _]. cbn [grid starting_mark gs] in Hb, Hx, Ho.
  split.
  - unfold current_mark at 1, moved. cbn [grid cells starting_mark gs].
    unfold x_count, o_count in *. cbn [cells] in *.
    rewrite (x_count_set_at _ _ _ Hn), (o_count_set_at _ _ _ Hn).
    unfold current_mark, x_count, o_count. cbn [grid cells starting_mark gs].
    destruct (Z.eqb_spec (count cs c_X) (count cs c_O)) as [E | E].
    + destruct sm; simpl;
        match goal with |- context [Z.eqb ?a ?b] => destruct (Z.eqb_spec a b) end;
        try reflexivity; lia.
    + destruct sm; simpl;
        match goal with |- context [Z.eqb ?a ?b] => destruct (Z.eqb_spec a b) end;
        try reflexivity; exfalso;
        destruct (Z_le_gt_dec (count cs c_X) (count cs c_O)) as [L | G];
        try (specialize (Hx G); discriminate);
        try (assert (G' : count cs c_O > count cs c_X) by lia;
             specialize (Ho G'); discriminate);
        lia.
  - unfold current_mark. cbn [grid starting_mark gs].
    destruct (Z.eqb_spec (x_count (mkGrid cs)) (o_count (mkGrid cs))) as [E | E].
    + tauto.
    + split; [intros H; exfalso; exact (other_neq _ H) | intros H; contradiction].
Qed.

(** The turn passes from cross to naught after the opening move. *)
Lemma turn_alternation_witness :
  exists gs m,
    GameState_of (lit "         ") CROSS = Ok gs /\
    make_move_to gs 4 = Ok m /\
    mark m = CROSS /\ current_mark (after_state m) = NAUGHT.
Proof.
  eexists. eexists.
  split; [reflexivity |]. split; [reflexivity |].
  pose proof (turn_alternation (lit "         ") CROSS _ 4 _ eq_refl eq_refl) as H.
  destruct H as (H1 & H2 & _). split; [exact H1 | exact H2].
Defined.

(** C4, as the code has it.  On a constructed game state that has no
    winner, [make_move_to] succeeds at every index from 0 to 8 whose cell
    is a space: the move carries the current mark, the given index and
    the state it was made on, and its after-state keeps the starting mark
    and holds the current mark at that index, every other cell being the
    one of the state before. *)
Theorem make_move_to_empty_cell (cs : str) (sm : Mark) (gs : GameState) (index : Z) :
  GameState_of cs sm = Ok gs ->
  winner gs = None ->
  0 <= index < 9 ->
  getitem (cells (grid gs)) index = Ok c_space ->
  exists m,
    make_move_to gs index = Ok m /\
    mark m = current_mark gs /\
    cell_index m = index /\
    before_state m = gs /\
    starting_mark (after_state m) = starting_mark gs /\
    getitem (cells (grid (after_state m))) index = Ok (mark_char (current_mark gs)) /\
    (forall j : nat, j <> Z.to_nat index ->
       nth_error (cells (grid (after_state m))) j = nth_error (cells (grid gs)) j).
Proof.
  intros Hgs Hw Hi Hc.
  apply GameState_of_Ok in Hgs. destruct Hgs as (Hg & Hcons & Hgs).
  assert (Hcs : cells (grid gs) = cs) by (subst gs; reflexivity).
  rewrite <- Hcs in Hg.
  apply getitem_nonneg in Hc; [| lia]. destruct Hc as [Hlen Hn].
  assert (Hlt : (Z.to_nat index < List.length (cells (grid gs)))%nat)
    by (apply nth_error_Some; congruence).
  exists (mkMove (current_mark gs) index gs (moved gs (Z.to_nat index))).
  split; [apply make_move_to_space; [assumption .. | lia | exact Hn] |].
  cbn [mark cell_index before_state after_state]. unfold moved.
  cbn [grid cells starting_mark].
  repeat split.
  - apply getitem_of_nth; [lia |]. apply nth_error_set_at_same. exact Hlt.
  - intros j Hj. apply nth_error_set_at_other; assumption.
Qed.

(** Naught answers in the centre after cross has opened in a corner. *)
Lemma make_move_to_empty_cell_witness :
  exists gs m,
    GameState_of (lit "X        ") CROSS = Ok gs /\
    make_move_to gs 4 = Ok m /\
    cells (grid (after_state m)) = lit "X   O    ".
Proof.
  destruct (make_move_to_empty_cell (lit "X        ") CROSS
              (mkGameState (mkGrid (lit "X        ")) CROSS) 4
              eq_refl eq_refl ltac:(lia) eq_refl) as (m & Hm & _).
  exists (mkGameState (mkGrid (lit "X        ")) CROSS), m.
  split; [reflexivity |]. split; [exact Hm |].
  vm_compute in Hm. injection Hm as <-. reflexivity.
Defined.

(** C4 fails on a state that already has a winner: cross has won, cell 5
    is empty, and the move of naught there is refused with
    [InvalidGameState]. *)
Lemma make_move_to_after_win_fails :
  exists gs,
    GameState_of (lit "XXXOO    ") CROSS = Ok gs /\
    getitem (cells (grid gs)) 5 = Ok c_space /\
    make_move_to gs 5 = Raise InvalidGameState.
Proof. eexists. repeat split; reflexivity. Qed.

(** C3 fails past the end of the cells: index 9 on the empty board raises
    [IndexError], not [InvalidMove]. *)
Lemma make_move_to_out_of_range :
  exists gs,
    GameState_of (lit "         ") CROSS = Ok gs /\
    make_move_to gs 9 = Raise IndexError /\
    make_move_to gs 9 <> Raise InvalidMove.
Proof.
  eexists. split; [reflexivity |]. split; [reflexivity |].
  vm_compute. discriminate.
Qed.

(** An index counted from the end is taken as Python takes it: [-2] on the
    empty board writes cell 7. *)
Lemma make_move_to_negative_index :
  exists gs m,
    GameState_of (lit "         ") CROSS = Ok gs /\
    make_move_to gs (-2) = Ok m /\
    cell_index m = -2 /\
    cells (grid (after_state m)) = lit "       X ".
Proof. eexists. eexists. repeat split; reflexivity. Qed.

(** C3, as the code has it.  For every game state: at an index from 0 up
    to the end of the cells whose cell is not a space, [make_move_to]
    fails with [InvalidMove]; at an index at or past the end of the cells
    it fails with [IndexError]. *)
Theorem make_move_to_failures (gs : GameState) (index : Z) :
  (0 <= index < len (cells (grid gs)) ->
   getitem (cells (grid gs)) index <> Ok c_space ->
   make_move_to gs index = Raise InvalidMove) /\
  (len (cells (grid gs)) <= index ->
   make_move_to gs index = Raise IndexError).
Proof.
  split.
  - intros Hi Hc. unfold make_move_to.
    destruct (nth_error (cells (grid gs)) (Z.to_nat index)) as [c |] eqn:Hn.
    + rewrite (getitem_of_nth _ _ _ (proj1 Hi) Hn) in Hc |- *. cbn [bind].
      destruct (char_eqb c c_space) eqn:E; [| reflexivity].
      apply N.eqb_eq in E. subst c. contradiction.
    + apply nth_error_None in Hn. unfold len in Hi. lia.
  - intros Hi. unfold make_move_to. rewrite getitem_too_large by exact Hi.
    reflexivity.
Qed.

Lemma make_move_to_failures_witness :
  make_move_to (mkGameState (mkGrid (lit "X        ")) CROSS) 0 = Raise InvalidMove /\
  make_move_to (mkGameState (mkGrid (lit "X        ")) CROSS) 9 = Raise IndexError.
Proof.
  destruct (make_move_to_failures (mkGameState (mkGrid (lit "X        ")) CROSS) 0)
    as [H0 _].
  destruct (make_move_to_failures (mkGameState (mkGrid (lit "X        ")) CROSS) 9)
    as [_ H9].
  split.
  - apply H0; [vm_compute; split; [discriminate | reflexivity] | vm_compute; discriminate].
  - apply H9. vm_compute. discriminate.
Defined.

(** ** Scores and mark counts *)

(** C5.  [evaluate_score] fails with [UnknownGameScore] exactly when the
    game is not over; when it is over the score is 0 on a tie, 1 when the
    given mark is the winner and -1 when the other mark is. *)
Theorem evaluate_score_spec (gs : GameState) (mark : Mark) :
  (evaluate_score gs mark = Raise UnknownGameScore <-> game_over gs = false) /\
  (game_over gs = true ->
   (tie gs = true -> evaluate_score gs mark = Ok 0) /\
   (winner gs = Some mark -> evaluate_score gs mark = Ok 1) /\
   (winner gs = Some (other mark) -> evaluate_score gs mark = Ok (-1))).
Proof.
  unfold evaluate_score, game_over, tie.
  destruct (winner gs) as [w |]; cbn [is_none negb].
  - split; [split; [destruct (Mark_eqb w mark) |]; discriminate |].
    intros _. split; [discriminate |]. split.
    + intros [= ->]. rewrite Mark_eqb_refl. reflexivity.
    + intros [= ->]. destruct mark; reflexivity.
  - destruct (empty_count (grid gs) =? 0).
    + split; [split; discriminate |]. intros _. repeat split; discriminate.
    + split; [split; reflexivity |]. discriminate.
Qed.

Lemma evaluate_score_spec_witness :
  evaluate_score (mkGameState (mkGrid (lit "XXXOO    ")) CROSS) CROSS = Ok 1 /\
  evaluate_score (mkGameState (mkGrid (lit "XXXOO    ")) CROSS) NAUGHT = Ok (-1) /\
  evaluate_score (mkGameState (mkGrid (lit "XOXOXOOXO")) CROSS) CROSS = Ok 0 /\
  evaluate_score (mkGameState (mkGrid (lit "         ")) CROSS) CROSS
    = Raise UnknownGameScore.
Proof.
  split; [| split; [| split]].
  - apply (evaluate_score_spec (mkGameState (mkGrid (lit "XXXOO    ")) CROSS) CROSS);
      reflexivity.
  - apply (evaluate_score_spec (mkGameState (mkGrid (lit "XXXOO    ")) CROSS) NAUGHT);
      reflexivity.
  - apply (evaluate_score_spec (mkGameState (mkGrid (lit "XOXOXOOXO")) CROSS) CROSS);
      reflexivity.
  - apply (evaluate_score_spec (mkGameState (mkGrid (lit "         ")) CROSS) CROSS).
    reflexivity.
Defined.

(** C6.  A game state whose grid has more than one cross in excess of the
    naughts, or more than one naught in excess of the crosses, is refused
    with [InvalidGameState]; every game state that was constructed has the
    two counts within one of each other. *)
Theorem unbalanced_marks_rejected (g : Grid) (sm : Mark) :
  (x_count g - o_count g > 1 \/ x_count g - o_count g < -1 ->
   GameState_new g sm = Raise InvalidGameState) /\
  (forall gs, GameState_new g sm = Ok gs ->
     -1 <= x_count (grid gs) - o_count (grid gs) <= 1).
Proof.
  split.
  - intros H. unfold GameState_new, validate_game_state, validate_number_of_marks.
    cbn [grid]. destruct (Z.gtb_spec (Z.abs (x_count g - o_count g)) 1); [reflexivity | lia].
  - intros gs H. apply GameState_new_Ok in H. destruct H as [[Hb _ _ _ _] ->].
    cbn [grid] in *. lia.
Qed.

Lemma unbalanced_marks_rejected_witness :
  GameState_new (mkGrid (lit "XXX      ")) CROSS = Raise InvalidGameState /\
  GameState_new (mkGrid (lit " O O   O ")) NAUGHT = Raise InvalidGameState /\
  -1 <= x_count (mkGrid (lit "XO X     ")) - o_count (mkGrid (lit "XO X     ")) <= 1.
Proof.
  split; [| split].
  - apply (unbalanced_marks_rejected (mkGrid (lit "XXX      ")) CROSS).
    left. vm_compute. reflexivity.
  - apply (unbalanced_marks_rejected (mkGrid (lit " O O   O ")) NAUGHT).
    right. vm_compute. reflexivity.
  - apply (proj2 (unbalanced_marks_rejected (mkGrid (lit "XO X     ")) CROSS)
             (mkGameState (mkGrid (lit "XO X     ")) CROSS)).
    reflexivity.
Defined.

(** ** Winner detection read as lines *)

Section NineCells.

Variables c0 c1 c2 c3 c4 c5 c6 c7 c8 : char.

Let cs : str := [c0; c1; c2; c3; c4; c5; c6; c7; c8].

Hypothesis no_newline : forall c, In c cs -> char_eqb c LF = false.

Lemma pattern_matches_line (p : str) (l : list Z) (m : Mark) :
  In (p, l) (combine WINNING_PATTERNS WINNING_LINES) ->
  pattern_matches p m cs = line_held cs m l.
Proof.
  assert (H0 := no_newline c0 ltac:(simpl; auto 10)).
  assert (H1 := no_newline c1 ltac:(simpl; auto 10)).
  assert (H2 := no_newline c2 ltac:(simpl; auto 10)).
  assert (H3 := no_newline c3 ltac:(simpl; auto 10)).
  assert (H4 := no_newline c4 ltac:(simpl; auto 10)).
  assert (H5 := no_newline c5 ltac:(simpl; auto 10)).
  assert (H6 := no_newline c6 ltac:(simpl; auto 10)).
  assert (H7 := no_newline c7 ltac:(simpl; auto 10)).
  assert (H8 := no_newline c8 ltac:(simpl; auto 10)).
  intros Hin. simpl in Hin.
  repeat (destruct Hin as [[= <- <-] | Hin];
    [ destruct m; unfold pattern_matches, line_held, cs; cbn [forallb];
      repeat match goal with
        | |- context [getitem ?s ?k] =>
            let v := eval vm_compute in (getitem s k) in
            change (getitem s k) with v
        end;
      cbn; rewrite ?H0, ?H1, ?H2, ?H3, ?H4, ?H5, ?H6, ?H7, ?H8; cbn [negb];
      repeat match goal with
        | |- context [char_eqb ?c ?d] => destruct (char_eqb c d)
        end; reflexivity |]).
  contradiction.
Qed.

End NineCells.

Lemma grid_ok_nine (cs : str) :
  grid_ok cs -> ~ In LF cs ->
  exists c0 c1 c2 c3 c4 c5 c6 c7 c8, cs = [c0; c1; c2; c3; c4; c5; c6; c7; c8].
Proof.
  intros Hg Hnl.
  assert (Hlen : List.length cs = 9%nat).
  { destruct (grid_ok_length _ Hg) as [H | H]; [exact H | exfalso].
    apply Hnl. apply (nth_error_In cs 9).
    pose proof (match_dollar_last _ _ Hg) as Hlast.
    change (List.length grid_pattern) with 9%nat in Hlast. apply Hlast. lia. }
  do 9 (destruct cs as [| ? cs]; [discriminate |]).
  destruct cs; [| discriminate]. eauto 10.
Qed.

Lemma winner_lines (cs : str) (sm : Mark) :
  grid_ok cs -> ~ In LF cs ->
  winner (mkGameState (mkGrid cs) sm) = option_map snd (first_held_line cs) /\
  winning_cells (mkGameState (mkGrid cs) sm) =
    match first_held_line cs with
    | Some (l, _) => l
    | None => []
    end.
Proof.
  intros Hg Hnl.
  destruct (grid_ok_nine _ Hg Hnl) as (c0 & c1 & c2 & c3 & c4 & c5 & c6 & c7 & c8 & ->).
  assert (Hno : forall c, In c [c0; c1; c2; c3; c4; c5; c6; c7; c8] ->
                          char_eqb c LF = false).
  { intros c Hc. apply N.eqb_neq. intros ->. exact (Hnl Hc). }
  pose proof (pattern_matches_line c0 c1 c2 c3 c4 c5 c6 c7 c8 Hno) as E.
  unfold winner, winning_cells, first_held_line, WINNING_PATTERNS, WINNING_LINES, Marks.
  cbn [grid cells for_return].
  repeat match goal with
    | |- context [pattern_matches ?p ?m ?s] =>
        match goal with
        | |- context [line_held s m ?l] =>
            rewrite (E p l m) by (simpl; auto 10)
        end
    end.
  repeat match goal with
    | |- context [Re.finditer ?a ?p] =>
        let v := eval vm_compute in (Re.finditer a p) in
        change (Re.finditer a p) with v
    end.
  repeat (match goal with
          | |- context [if line_held ?a ?b ?c then _ else _] =>
              destruct (line_held a b c)
          end; cbn [option_map snd]; try (split; reflexivity)).
Qed.

(** C1 fails on its scenario: the state with cells [XXX      ] is refused
    at construction, three crosses standing against no naught. *)
Lemma first_row_scenario_refused :
  GameState_of (lit "XXX      ") CROSS = Raise InvalidGameState.
Proof. reflexivity. Qed.

(** A newline in a cell hides a line from the patterns: [.] does not match
    it. *)
Lemma newline_hides_line :
  exists gs,
    GameState_of (lit "XXX" ++ LF :: lit "OO   ") CROSS = Ok gs /\
    winner gs = None /\
    first_held_line (cells (grid gs)) = Some ([0; 1; 2], CROSS).
Proof. eexists. repeat split; reflexivity. Qed.

(** C1, as the code has it.  The [?] positions of the eight patterns are
    the eight lines, in order.  On every grid that holds no newline, the
    winner is the mark of the first line/mark combination, lines in
    declaration order and for each line cross before naught, whose three
    positions all hold the mark, and [winning_cells] is that line (the
    empty list when there is none).  The state with cells [XXXOO    ]
    started by cross is constructed, with cross the winner on cells 0, 1,
    2 and the game over; on the cells [XXX      ] the same three facts are
    computed, but that state is never constructed. *)
Theorem winner_first_held_line :
  List.map (Re.finditer (Re.One (Re.Chr c_qmark))) WINNING_PATTERNS = WINNING_LINES /\
  (forall cs g sm,
     Grid_new cs = Ok g -> ~ In LF cs ->
     winner (mkGameState g sm) = option_map snd (first_held_line cs) /\
     winning_cells (mkGameState g sm) =
       match first_held_line cs with
       | Some (l, _) => l
       | None => []
       end) /\
  (exists gs,
     GameState_of (lit "XXXOO    ") CROSS = Ok gs /\
     winner gs = Some CROSS /\ winning_cells gs = [0; 1; 2] /\ game_over gs = true) /\
  (let raw := mkGameState (mkGrid (lit "XXX      ")) CROSS in
   winner raw = Some CROSS /\ winning_cells raw = [0; 1; 2] /\ game_over raw = true /\
   GameState_new (grid raw) (starting_mark raw) = Raise InvalidGameState).
Proof.
  split; [reflexivity |]. split; [| split].
  - intros cs g sm Hg Hnl. apply Grid_new_Ok in Hg. destruct Hg as [Hg ->].
    apply winner_lines; assumption.
  - eexists. repeat split; reflexivity.
  - repeat split; reflexivity.
Qed.

Lemma winner_first_held_line_witness :
  winner (mkGameState (mkGrid (lit "OXOXXOOXX")) CROSS) = Some CROSS /\
  winning_cells (mkGameState (mkGrid (lit "OXOXXOOXX")) CROSS) = [1; 4; 7].
Proof.
  destruct winner_first_held_line as (_ & H & _).
  apply (H (lit "OXOXXOOXX") (mkGrid (lit "OXOXXOOXX")) CROSS eq_refl).
  vm_compute. intuition discriminate.
Defined.

(** ** Grid validation *)

Lemma plain_cell_class (c : char) :
  plain_cell c = true -> Re.class_matches grid_class c = true.
Proof.
  unfold plain_cell. intros H.
  apply orb_true_iff in H. destruct H as [H | H];
    [apply orb_true_iff in H; destruct H as [H | H] |];
    apply N.eqb_eq in H; subst c; reflexivity.
Qed.

Lemma plain_cell_space (c : char) :
  plain_cell c = true -> Re.is_space c = char_eqb c c_space.
Proof.
  unfold plain_cell. intros H.
  apply orb_true_iff in H. destruct H as [H | H];
    [apply orb_true_iff in H; destruct H as [H | H] |];
    apply N.eqb_eq in H; subst c; reflexivity.
Qed.

Lemma match_repeat_class (n : nat) (s : str) :
  List.length s = n -> forallb plain_cell s = true ->
  Re.match_ (repeat (Re.Cls grid_class) n) true s = true.
Proof.
  revert s. induction n as [| n IH]; intros s Hl Hp.
  - destruct s; [reflexivity | discriminate].
  - destruct s as [| c s]; [discriminate |]. simpl in Hp.
    apply andb_true_iff in Hp. destruct Hp as [Hc Hp].
    simpl repeat. cbn [Re.match_ Re.atom_matches].
    rewrite (plain_cell_class _ Hc). apply IH; [simpl in Hl; lia | exact Hp].
Qed.

Lemma match_repeat_class_inv (n : nat) (s : str) (c : char) :
  Re.match_ (repeat (Re.Cls grid_class) n) true s = true ->
  In c s -> Re.class_matches grid_class c = true \/ c = LF.
Proof.
  revert s. induction n as [| n IH]; intros s H Hc.
  - destruct s as [| d [| e s]]; simpl in *; try contradiction; try discriminate.
    destruct Hc as [<- | []]. right. apply N.eqb_eq. exact H.
  - destruct s as [| d s]; [contradiction |].
    simpl repeat in H. cbn [Re.match_ Re.atom_matches] in H.
    destruct (Re.class_matches grid_class d) eqn:Hd; [| discriminate].
    destruct Hc as [<- | Hc]; [left; exact Hd | exact (IH _ H Hc)].
Qed.

(** What [validate_grid] does on the sequences the design document names:
    nine cells of cross, naught and space are accepted; a sequence of
    another length than nine or ten is refused, and so is one that holds a
    character that is neither a cross, a naught nor white space. *)
Lemma Grid_new_plain (cs : str) :
  plain cs = true -> Grid_new cs = Ok (mkGrid cs).
Proof.
  unfold plain. intros H. apply andb_true_iff in H. destruct H as [Hl Hp].
  apply Nat.eqb_eq in Hl. apply Grid_new_Ok. split; [| reflexivity].
  apply (match_repeat_class 9 cs Hl Hp).
Qed.

Lemma Grid_new_wrong_length (cs : str) :
  List.length cs <> 9%nat -> List.length cs <> 10%nat ->
  Grid_new cs = Raise ValueError.
Proof.
  intros H9 H10. destruct (Grid_new cs) as [g | e] eqn:E.
  - apply Grid_new_Ok in E. destruct E as [Hg _].
    apply grid_ok_length in Hg. lia.
  - apply Grid_new_Raise in E. destruct E as [-> _]. reflexivity.
Qed.

Lemma Grid_new_bad_symbol (cs : str) (c : char) :
  In c cs -> Re.is_space c = false -> c <> c_X -> c <> c_O ->
  Grid_new cs = Raise ValueError.
Proof.
  intros Hin Hs HX HO. destruct (Grid_new cs) as [g | e] eqn:E.
  - exfalso. apply Grid_new_Ok in E. destruct E as [Hg _].
    destruct (match_repeat_class_inv 9 cs c Hg Hin) as [H | ->]; [| discriminate].
    simpl in H. rewrite Hs in H.
    apply N.eqb_neq in HX, HO. unfold char_eqb in H. rewrite HX, HO in H.
    discriminate.
  - apply Grid_new_Raise in E. destruct E as [-> _]. reflexivity.
Qed.

(** C7, on the code.  [validate_grid] lets through a grid that holds a tab
    (white space, but not one of the three symbols), and a sequence of ten
    characters, nine cells followed by a newline. *)
Theorem validate_grid_accepts_other_whitespace :
  Grid_new (TAB :: lit "        ") = Ok (mkGrid (TAB :: lit "        ")) /\
  plain_cell TAB = false /\
  Grid_new (lit "         " ++ [LF]) = Ok (mkGrid (lit "         " ++ [LF])) /\
  List.length (lit "         " ++ [LF]) = 10%nat.
Proof. repeat split; reflexivity. Qed.

(** On nine cells of cross, naught and space the three counts add up to
    nine. *)
Lemma plain_counts (cs : str) :
  forallb plain_cell cs = true ->
  count cs c_X + count cs c_O + count cs c_space = len cs.
Proof.
  unfold len. induction cs as [| c cs IH]; intros H; [reflexivity |].
  simpl in H. apply andb_true_iff in H. destruct H as [Hc H].
  specialize (IH H). cbn [count List.length]. unfold plain_cell in Hc.
  apply orb_true_iff in Hc. destruct Hc as [Hc | Hc];
    [apply orb_true_iff in Hc; destruct Hc as [Hc | Hc] |];
    apply N.eqb_eq in Hc; subst c; simpl (char_eqb _ _); lia.
Qed.

Lemma plain_grid_counts (cs : str) (g : Grid) :
  plain cs = true -> Grid_new cs = Ok g ->
  x_count g + o_count g + empty_count g = 9.
Proof.
  unfold plain. intros H Hg. apply andb_true_iff in H. destruct H as [Hl Hp].
  apply Nat.eqb_eq in Hl. apply Grid_new_Ok in Hg. destruct Hg as [_ ->].
  unfold x_count, o_count, empty_count. cbn [cells].
  rewrite (plain_counts _ Hp). unfold len. lia.
Qed.

(** C8, on the code.  The grid with a tab in its first cell is constructed,
    and its three counts add up to eight: the tab is none of the three. *)
Theorem counts_of_grid_with_tab :
  exists g,
    Grid_new (TAB :: lit "        ") = Ok g /\
    x_count g = 0 /\ o_count g = 0 /\ empty_count g = 8 /\
    x_count g + o_count g + empty_count g <> 9.
Proof.
  eexists. split; [reflexivity |]. repeat split. vm_compute. discriminate.
Qed.

(** ** Possible moves *)

Lemma finditer_from_spec (a : Re.atom) (s : str) (pos i : Z) :
  In i (Re.finditer_from a pos s) ->
  exists c, pos <= i /\ nth_error s (Z.to_nat (i - pos)) = Some c /\
            Re.atom_matches a c = true.
Proof.
  revert pos. induction s as [| d s IH]; intros pos Hin; [contradiction |].
  simpl in Hin.
  assert (Hrest : In i (Re.finditer_from a (pos + 1) s) ->
                  exists c, pos <= i /\
                            nth_error (d :: s) (Z.to_nat (i - pos)) = Some c /\
                            Re.atom_matches a c = true).
  { intros H. destruct (IH _ H) as (c & Hle & Hn & Hm).
    exists c. split; [lia |]. split; [| exact Hm].
    replace (Z.to_nat (i - pos)) with (S (Z.to_nat (i - (pos + 1)))) by lia.
    exact Hn. }
  destruct (Re.atom_matches a d) eqn:Hd; [| auto].
  destruct Hin as [<- | Hin]; [| auto].
  exists d. rewrite Z.sub_diag. auto with zarith.
Qed.

Lemma finditer_from_ext (a b : Re.atom) (s : str) (pos : Z) :
  (forall c, In c s -> Re.atom_matches a c = Re.atom_matches b c) ->
  Re.finditer_from a pos s = Re.finditer_from b pos s.
Proof.
  revert pos. induction s as [| d s IH]; intros pos H; [reflexivity |].
  simpl. rewrite (H d (or_introl eq_refl)).
  rewrite IH by (intros c Hc; apply H; right; exact Hc). reflexivity.
Qed.

Lemma collect_moves_map (gs : GameState) (f : Z -> Move) (positions : list Z) :
  (forall i, In i positions -> make_move_to gs i = Ok (f i)) ->
  collect_moves gs positions = Ok (List.map f positions).
Proof.
  induction positions as [| i rest IH]; intros H; [reflexivity |].
  cbn [collect_moves List.map]. rewrite (H i (or_introl eq_refl)). cbn [bind].
  rewrite IH by (intros j Hj; apply H; right; exact Hj). reflexivity.
Qed.

Lemma game_over_false (gs : GameState) :
  game_over gs = false -> winner gs = None.
Proof.
  unfold game_over. destruct (winner gs); [discriminate | reflexivity].
Qed.

(** On a constructed state of nine cells of cross, naught and space,
    [possible_moves] is the empty list once the game is over, and
    otherwise the moves [make_move_to] gives at the indices of the spaces,
    in ascending order. *)
Lemma possible_moves_plain (cs : str) (sm : Mark) (gs : GameState) :
  GameState_of cs sm = Ok gs -> plain cs = true ->
  (game_over gs = true -> possible_moves gs = Ok []) /\
  (game_over gs = false ->
   exists ms,
     possible_moves gs = Ok ms /\
     List.map cell_index ms = Re.finditer (Re.One (Re.Chr c_space)) cs /\
     Forall (fun m => make_move_to gs (cell_index m) = Ok m) ms).
Proof.
  intros Hgs Hp. unfold possible_moves. split; intros Hover; rewrite Hover;
    cbn [negb]; [reflexivity |].
  pose proof (game_over_false _ Hover) as Hw.
  pose proof Hgs as Hgs'.
  apply GameState_of_Ok in Hgs'. destruct Hgs' as (Hg & Hc & E).
  assert (Hcs : cells (grid gs) = cs) by (subst gs; reflexivity).
  unfold plain in Hp. apply andb_true_iff in Hp. destruct Hp as [Hl Hp].
  apply Nat.eqb_eq in Hl. rewrite forallb_forall in Hp.
  assert (Hfind : Re.finditer (Re.One Re.Ws) cs
                  = Re.finditer (Re.One (Re.Chr c_space)) cs).
  { apply finditer_from_ext. intros c Hin. simpl.
    apply plain_cell_space. apply Hp. exact Hin. }
  set (f := fun i => mkMove (current_mark gs) i gs (moved gs (Z.to_nat i))).
  assert (Hmove : forall i, In i (Re.finditer (Re.One (Re.Chr c_space)) cs) ->
                            make_move_to gs i = Ok (f i)).
  { intros i Hin. apply finditer_from_spec in Hin.
    destruct Hin as (c & Hle & Hn & Hm). simpl in Hm.
    apply N.eqb_eq in Hm. subst c. rewrite Z.sub_0_r in Hn.
    assert (Hlt : (Z.to_nat i < List.length cs)%nat)
      by (apply nth_error_Some; congruence).
    unfold f. apply make_move_to_space; rewrite ?Hcs; assumption. }
  exists (List.map f (Re.finditer (Re.One (Re.Chr c_space)) cs)).
  rewrite Hcs, Hfind. split; [apply collect_moves_map; exact Hmove |].
  split.
  - rewrite map_map. unfold f. cbn [cell_index]. apply map_id.
  - apply Forall_forall. intros m Hm. apply in_map_iff in Hm.
    destruct Hm as (i & <- & Hi). unfold f at 1. cbn [cell_index].
    apply Hmove. exact Hi.
Qed.

(** C2, on the code.  On the constructed state whose first cell holds a
    tab the game is not over, and [possible_moves] does not return: the
    scan for [\s] finds the tab, and [make_move_to] refuses it with
    [InvalidMove]. *)
Theorem possible_moves_raises_on_tab :
  exists gs,
    GameState_of (TAB :: lit "        ") CROSS = Ok gs /\
    game_over gs = false /\
    possible_moves gs = Raise InvalidMove.
Proof. eexists. repeat split; reflexivity. Qed.

(** ** Self-play of the minimax player *)

Lemma str_eqb_eq (a b : str) : str_eqb a b = true -> a = b.
Proof.
  revert b. induction a as [| c a IH]; intros [| d b] H; simpl in H;
    try discriminate; [reflexivity |].
  destruct (char_eqb c d) eqn:E; [| discriminate].
  apply N.eqb_eq in E. subst d. f_equal. apply IH. exact H.
Qed.

Lemma make_move_to_inv_nonneg (gs : GameState) (index : Z) (m : Move) :
  0 <= index -> make_move_to gs index = Ok m ->
  nth_error (cells (grid gs)) (Z.to_nat index) = Some c_space /\
  after_state m = moved gs (Z.to_nat index).
Proof.
  intros Hi H. unfold make_move_to in H.
  inv_bind H. rename a into c.
  destruct (char_eqb c c_space) eqn:Hc; cbn [negb] in H; [| discriminate].
  apply N.eqb_eq in Hc. subst c.
  apply getitem_nonneg in Ha; [| exact Hi]. destruct Ha as [Hlt Hn].
  inv_bind H. rename a into g. inv_bind H. rename a into after.
  injection H as <-. cbn [after_state].
  apply Grid_new_Ok in Ha. destruct Ha as [_ ->].
  unfold GameState_new in Ha0. inv_bind Ha0. injection Ha0 as <-.
  rewrite move_cells_nonneg by lia. auto.
Qed.

Lemma collect_moves_inv (gs : GameState) (positions : list Z) (ms : list Move) :
  Forall (fun i => 0 <= i) positions ->
  collect_moves gs positions = Ok ms ->
  Forall (fun m => exists i : nat,
            nth_error (cells (grid gs)) i = Some c_space /\
            after_state m = moved gs i) ms.
Proof.
  revert ms. induction positions as [| i rest IH]; intros ms Hpos H.
  - injection H as <-. constructor.
  - cbn [collect_moves] in H. inv_bind H. inv_bind H. injection H as <-.
    inversion Hpos as [| ? ? Hi Hrest]; subst.
    constructor; [| apply IH; assumption].
    destruct (make_move_to_inv_nonneg _ _ _ Hi Ha) as [Hn Hm]. eauto.
Qed.

Lemma finditer_nonneg (a : Re.atom) (s : str) :
  Forall (fun i => 0 <= i) (Re.finditer a s).
Proof.
  apply Forall_forall. intros i Hi. apply finditer_from_spec in Hi.
  destruct Hi as (c & Hle & _). exact Hle.
Qed.

(** The after-states of the possible moves: one more mark on a space. *)
Lemma possible_moves_inv (gs : GameState) (ms : list Move) :
  possible_moves gs = Ok ms ->
  Forall (fun m => exists i : nat,
            nth_error (cells (grid gs)) i = Some c_space /\
            after_state m = moved gs i) ms.
Proof.
  unfold possible_moves. destruct (game_over gs); cbn [negb]; intros H.
  - injection H as <-. constructor.
  - eapply collect_moves_inv; [apply finditer_nonneg | exact H].
Qed.

Lemma empty_count_moved (gs : GameState) (i : nat) :
  nth_error (cells (grid gs)) i = Some c_space ->
  empty_count (grid (moved gs i)) = empty_count (grid gs) - 1.
Proof.
  intros Hn. unfold empty_count, moved. cbn [grid cells].
  rewrite (count_set_at _ _ _ _ _ Hn). destruct (current_mark gs); simpl; lia.
Qed.

Lemma minimax_step (fuel : nat) (mk : Mark) (s : GameState) (mx : bool) :
  Minimax.minimax (S fuel) mk s mx =
  if game_over s then Some (evaluate_score s mk)
  else
    match possible_moves s with
    | Raise e => Some (Raise e)
    | Ok moves =>
        match Minimax.collect
                (List.map (fun m => Minimax.minimax fuel mk (after_state m) (negb mx))
                   moves) with
        | None => None
        | Some (Raise e) => Some (Raise e)
        | Some (Ok values) =>
            Some (Minimax.extreme (Mark_eqb (current_mark s) mk) values)
        end
    end.
Proof. reflexivity. Qed.

Lemma lookup_find (T : Table.t) (s : GameState) (v : Z * Z) :
  Table.lookup T s = Some v ->
  PositiveMap.find (Table.key (cells (grid s))) T = Some (cells (grid s), v).
Proof.
  unfold Table.lookup.
  destruct (PositiveMap.find (Table.key (cells (grid s))) T) as [[cs w] |];
    [| discriminate].
  destruct (str_eqb cs (cells (grid s))) eqn:E; [| discriminate].
  apply str_eqb_eq in E. subst cs. intros [= ->]. reflexivity.
Qed.

(** The calls on the after-states of a list of moves, when each of them
    returns the value the table holds. *)
Lemma collect_of_lookups (T : Table.t) (f : Move -> Minimax.run Z) (g : Z * Z -> Z)
    (moves : list Move) (vs : list (Z * Z)) :
  Table.lookups T (List.map after_state moves) = Some vs ->
  (forall m v, In m moves -> Table.lookup T (after_state m) = Some v ->
               f m = Some (Ok (g v))) ->
  Minimax.collect (List.map f moves) = Some (Ok (List.map g vs)).
Proof.
  revert vs. induction moves as [| m moves IH]; intros vs H Hf.
  - injection H as <-. reflexivity.
  - cbn [List.map Table.lookups] in H.
    destruct (Table.lookup T (after_state m)) as [v |] eqn:Hm; [| discriminate].
    destruct (Table.lookups T (List.map after_state moves)) as [vs' |] eqn:Hl;
      [| discriminate].
    injection H as <-. cbn [List.map Minimax.collect].
    rewrite (Hf m v (or_introl eq_refl) Hm).
    rewrite (IH vs' eq_refl) by (intros m' v' Hin; apply Hf; right; exact Hin).
    reflexivity.
Qed.

Lemma pair_eqb_eq (a b : Z * Z) : Table.pair_eqb a b = true -> a = b.
Proof.
  destruct a, b. unfold Table.pair_eqb. cbn [fst snd]. intros H.
  apply andb_true_iff in H. destruct H as [H1 H2].
  apply Z.eqb_eq in H1, H2. congruence.
Qed.

(** A table that passes the check is sound. *)
Lemma check_sound (T : Table.t) (sm : Mark) :
  Table.check T sm = true -> Table.sound T sm.
Proof.
  intros Hcheck s v Hsm Hl fuel. revert s v Hsm Hl.
  induction fuel as [| fuel IH]; intros s v Hsm Hl mk mx Hfuel.
  - pose proof (count_nonneg (cells (grid s)) c_space). unfold empty_count in Hfuel.
    simpl in Hfuel. lia.
  - pose proof (lookup_find _ _ _ Hl) as Hfind.
    apply PositiveMap.elements_correct in Hfind.
    unfold Table.check in Hcheck. rewrite forallb_forall in Hcheck.
    specialize (Hcheck _ Hfind). cbn [snd] in Hcheck.
    unfold Table.entry_ok in Hcheck. cbn [fst snd] in Hcheck.
    assert (Hs : mkGameState (mkGrid (cells (grid s))) sm = s)
      by (destruct s as [[cs] sm']; cbn in *; congruence).
    rewrite Hs in Hcheck.
    destruct (Table.node_values T s) as [w |] eqn:Hnode; [| discriminate].
    apply pair_eqb_eq in Hcheck. subst w.
    rewrite minimax_step. unfold Table.node_values in Hnode.
    destruct (game_over s).
    + destruct (evaluate_score s CROSS) as [a |] eqn:Ea; [| discriminate].
      destruct (evaluate_score s NAUGHT) as [b |] eqn:Eb; [| discriminate].
      injection Hnode as <-. destruct mk; cbn [Table.value_for fst snd]; congruence.
    + destruct (possible_moves s) as [moves | e] eqn:Hmoves; [| discriminate].
      unfold Table.values_of_moves in Hnode.
      destruct (Table.lookups T (List.map after_state moves)) as [vs |] eqn:Hvs;
        [| discriminate].
      destruct (Minimax.extreme (Mark_eqb (current_mark s) CROSS)
                  (List.map (Table.value_for CROSS) vs)) as [a |] eqn:Ea;
        [| discriminate].
      destruct (Minimax.extreme (Mark_eqb (current_mark s) NAUGHT)
                  (List.map (Table.value_for NAUGHT) vs)) as [b |] eqn:Eb;
        [| discriminate].
      injection Hnode as <-.
      pose proof (possible_moves_inv _ _ Hmoves) as Hinv.
      rewrite Forall_forall in Hinv.
      rewrite (collect_of_lookups T _ (Table.value_for mk) moves vs Hvs).
      * destruct mk; cbn [Table.value_for fst snd]; congruence.
      * intros m w Hin Hw. destruct (Hinv m Hin) as (i & Hn & Hafter).
        apply IH; [rewrite Hafter; exact Hsm | exact Hw |].
        rewrite Hafter, (empty_count_moved _ _ Hn). lia.
Qed.

(** The move found off a sound table is the move [find_best_move] finds. *)
Lemma find_best_sound (T : Table.t) (gs : GameState) (fuel : nat) (r : option Move) :
  Table.sound T (starting_mark gs) ->
  empty_count (grid gs) <= Z.of_nat fuel ->
  Table.find_best T gs = Some r ->
  Minimax.find_best_move fuel gs = Some (Ok r).
Proof.
  intros Hsound Hfuel H. unfold Table.find_best in H. unfold Minimax.find_best_move.
  destruct (possible_moves gs) as [moves | e] eqn:Hmoves; [| discriminate].
  destruct (Table.lookups T (List.map after_state moves)) as [vs |] eqn:Hvs;
    [| discriminate].
  injection H as <-.
  pose proof (possible_moves_inv _ _ Hmoves) as Hinv.
  rewrite Forall_forall in Hinv.
  rewrite (collect_of_lookups T _ (Table.value_for (current_mark gs)) moves vs Hvs);
    [reflexivity |].
  intros m w Hin Hw. destruct (Hinv m Hin) as (i & Hn & Hafter).
  apply Hsound; [rewrite Hafter; reflexivity | exact Hw |].
  rewrite Hafter, (empty_count_moved _ _ Hn). lia.
Qed.

Lemma play_loop_step (self : TicTacToe) (rnd : nat -> nat) (fuel t : nat)
    (gs : GameState) :
  play_loop self rnd (S fuel) t gs =
  if game_over gs then Some (Ok gs)
  else
    match make_move (get_current_player self gs) (S fuel) gs (rnd t) with
    | None => None
    | Some (Ok next) => play_loop self rnd fuel (S t) next
    | Some (Raise InvalidMove) => play_loop self rnd fuel (S t) gs
    | Some (Raise e) => Some (Raise e)
    end.
Proof. reflexivity. Qed.

Lemma table_play_loop_step (T : Table.t) (fuel : nat) (gs : GameState) :
  Table.play_loop T (S fuel) gs =
  if game_over gs then Some gs
  else if game_not_started gs then None
  else if negb (empty_count (grid gs) <=? Z.of_nat (S fuel)) then None
  else
    match Table.find_best T gs with
    | Some (Some move) =>
        if Mark_eqb (starting_mark (after_state move)) (starting_mark gs)
        then Table.play_loop T fuel (after_state move)
        else None
    | _ => None
    end.
Proof. reflexivity. Qed.

(** Whoever is to move in a started game, the minimax player of that mark
    plays the move [find_best_move] finds. *)
Lemma minimax_player_moves (gs : GameState) (fuel r : nat) (move : Move) :
  game_not_started gs = false ->
  Minimax.find_best_move fuel gs = Some (Ok (Some move)) ->
  make_move (get_current_player minimax_vs_minimax gs) fuel gs r =
  Some (Ok (after_state move)).
Proof.
  intros Hns Hf. unfold get_current_player, minimax_vs_minimax.
  cbn [player1 player2 player_mark].
  destruct (current_mark gs) eqn:E; cbn [Mark_eqb];
    unfold make_move, get_move, get_computer_move; cbn [player_mark];
    rewrite E; cbn [Mark_eqb]; rewrite Hns, Hf; reflexivity.
Qed.

Lemma minimax_vs_minimax_constructed :
  TicTacToe_new (MinimaxComputerPlayer CROSS) (MinimaxComputerPlayer NAUGHT)
  = Ok minimax_vs_minimax.
Proof. reflexivity. Qed.

(** A game played off a sound table is the game [play] plays. *)
Lemma play_loop_sound (T : Table.t) (rnd : nat -> nat) (fuel t : nat)
    (gs final : GameState) :
  Table.sound T (starting_mark gs) ->
  Table.play_loop T fuel gs = Some final ->
  play_loop minimax_vs_minimax rnd fuel t gs = Some (Ok final).
Proof.
  revert t gs. induction fuel as [| fuel IH]; intros t gs Hsound H;
    [discriminate |].
  rewrite table_play_loop_step in H. rewrite play_loop_step.
  destruct (game_over gs); [congruence |].
  destruct (game_not_started gs) eqn:Hns; [discriminate |].
  destruct (Z.leb_spec (empty_count (grid gs)) (Z.of_nat (S fuel))) as [Hle | Hgt];
    cbn [negb] in H; [| discriminate].
  destruct (Table.find_best T gs) as [[move |] |] eqn:Hbest; try discriminate.
  destruct (Mark_eqb (starting_mark (after_state move)) (starting_mark gs)) eqn:Hsm;
    [| discriminate].
  apply Mark_eqb_eq in Hsm.
  rewrite (minimax_player_moves gs (S fuel) (rnd t) move Hns
             (find_best_sound T gs (S fuel) _ Hsound Hle Hbest)).
  apply IH; [rewrite Hsm; exact Hsound | exact H].
Qed.

(** The opening: on the empty grid the player to move draws one of the
    nine cells. *)
Lemma possible_moves_initial (sm : Mark) :
  possible_moves (initial sm) = Ok (List.map (opening_move sm) (seq 0 9)).
Proof. destruct sm; vm_compute; reflexivity. Qed.

Lemma random_choice_map_seq {A : Type} (f : nat -> A) (n r : nat) :
  (0 < n)%nat ->
  random_choice r (List.map f (seq 0 n)) = Ok (f (r mod n)%nat).
Proof.
  intros Hn. unfold random_choice.
  destruct (List.map f (seq 0 n)) as [| a l] eqn:E.
  - apply (f_equal (@List.length A)) in E.
    rewrite length_map, length_seq in E. simpl in E. lia.
  - rewrite <- E, length_map, length_seq.
    pose proof (Nat.mod_upper_bound r n ltac:(lia)) as Hlt.
    rewrite nth_error_map, nth_error_seq.
    destruct (Nat.ltb_spec (r mod n) n); [reflexivity | lia].
Qed.

Lemma make_random_move_initial (sm : Mark) (r : nat) :
  make_random_move (initial sm) r = Ok (Some (opening_move sm (r mod 9))).
Proof.
  unfold make_random_move. rewrite possible_moves_initial. cbn [bind].
  rewrite random_choice_map_seq by lia. reflexivity.
Qed.

Lemma play_opening (rnd : nat -> nat) (sm : Mark) :
  play minimax_vs_minimax rnd 10 sm =
  play_loop minimax_vs_minimax rnd 9 1 (moved (initial sm) (rnd 0%nat mod 9)).
Proof.
  unfold play.
  assert (Hinit : (g <- Grid_new (repeat c_space 9) ;; GameState_new g sm)
                  = Ok (initial sm)) by (destruct sm; reflexivity).
  rewrite Hinit. rewrite play_loop_step.
  assert (Hover : game_over (initial sm) = false) by (destruct sm; reflexivity).
  assert (Hplayer : get_current_player minimax_vs_minimax (initial sm)
                    = MinimaxComputerPlayer sm) by (destruct sm; reflexivity).
  assert (Hturn : current_mark (initial sm) = sm) by (destruct sm; reflexivity).
  assert (Hns : game_not_started (initial sm) = true) by (destruct sm; reflexivity).
  rewrite Hover, Hplayer. unfold make_move, get_move, get_computer_move.
  cbn [player_mark]. rewrite Hturn, Mark_eqb_refl, Hns, make_random_move_initial.
  reflexivity.
Qed.

(** The tables of the two games pass the check, and off them every
    opening ends in a tie. *)
Lemma self_play_certificate (sm : Mark) : Table.self_play_ties sm = true.
Proof.
  destruct sm; vm_cast_no_check (@eq_refl bool true).
Qed.

(** C9.  The minimax player draws its move at random when the game has
    not started and takes [find_best_move] in every other state.  Against
    itself on the empty board, whichever mark starts and whatever cell
    the opening draw picks, the game ends, on a full board without a
    winner: a tie. *)
Theorem minimax_self_play_ties (rnd : nat -> nat) (sm : Mark) :
  (forall m fuel gs r,
     get_computer_move (MinimaxComputerPlayer m) fuel gs r =
     if game_not_started gs then Some (make_random_move gs r)
     else Minimax.find_best_move fuel gs) /\
  exists final,
    play minimax_vs_minimax rnd 10 sm = Some (Ok final) /\
    tie final = true /\ winner final = None /\ game_over final = true.
Proof.
  split; [reflexivity |].
  pose proof (self_play_certificate sm) as Hcert.
  unfold Table.self_play_ties in Hcert. cbv zeta in Hcert.
  apply andb_true_iff in Hcert. destruct Hcert as [Hcheck Hties].
  apply check_sound in Hcheck. rewrite forallb_forall in Hties.
  assert (Hk : In (rnd 0%nat mod 9)%nat (seq 0 9)).
  { apply in_seq. pose proof (Nat.mod_upper_bound (rnd 0%nat) 9). lia. }
  specialize (Hties _ Hk). unfold Table.ties_from in Hties.
  destruct (Table.play_loop (Table.build sm) 9
              (moved (initial sm) (rnd 0%nat mod 9)))
    as [final |] eqn:Hplay; [| discriminate].
  apply andb_true_iff in Hties. destruct Hties as [Htie Hwin].
  exists final. rewrite play_opening.
  split; [apply play_loop_sound with (T := Table.build sm);
          [exact Hcheck | exact Hplay] |].
  split; [exact Htie |]. split.
  - destruct (winner final); [discriminate | reflexivity].
  - unfold game_over. rewrite Htie. destruct (winner final); reflexivity.
Qed.

(** * More of the code *)

(** ** Marks, status and score *)

(** X1.  [Mark.other] swaps the two marks: taken twice it gives the mark
    back, it never gives the mark itself, and there is no third mark. *)
Theorem other_swaps (m : Mark) :
  other (other m) = m /\ other m <> m /\ forall k, k = m \/ k = other m.
Proof.
  split; [apply other_involutive |]. split; [apply other_neq |].
  intros k. destruct k, m; auto.
Qed.

(** X2.  Of the three states of a game exactly one holds: a mark has won,
    the game is tied, or it goes on. *)
Theorem game_status_exclusive (gs : GameState) :
  ((exists m, winner gs = Some m) /\ tie gs = false /\ game_over gs = true) \/
  (winner gs = None /\ tie gs = true /\ game_over gs = true
   /\ empty_count (grid gs) = 0) \/
  (winner gs = None /\ tie gs = false /\ game_over gs = false
   /\ empty_count (grid gs) <> 0).
Proof.
  unfold game_over, tie. destruct (winner gs) as [w |]; cbn [is_none negb].
  - left. eauto.
  - right. destruct (Z.eqb_spec (empty_count (grid gs)) 0); [left | right]; auto.
Qed.

(** X3.  The score is zero-sum: what [evaluate_score] gives for a mark is
    the opposite of what it gives for the other mark, and it is -1, 0 or
    1. *)
Theorem evaluate_score_zero_sum (gs : GameState) (m : Mark) (v : Z) :
  evaluate_score gs m = Ok v ->
  evaluate_score gs (other m) = Ok (- v) /\ -1 <= v <= 1.
Proof.
  unfold evaluate_score, game_over, tie.
  destruct (winner gs) as [w |]; cbn [is_none negb].
  - destruct w, m; cbn [Mark_eqb other]; intros [= <-];
      split; try reflexivity; lia.
  - destruct (empty_count (grid gs) =? 0); [| discriminate].
    intros [= <-]. split; [reflexivity | lia].
Qed.

Lemma evaluate_score_zero_sum_witness :
  evaluate_score (mkGameState (mkGrid (lit "XXXOO    ")) CROSS) NAUGHT = Ok (- (1)).
Proof.
  apply (evaluate_score_zero_sum (mkGameState (mkGrid (lit "XXXOO    ")) CROSS)
           CROSS 1 eq_refl).
Defined.

(** ** Construction *)

Lemma GameState_new_Raise (g : Grid) (sm : Mark) (e : exn) :
  GameState_new g sm = Raise e -> e = InvalidGameState.
Proof.
  unfold GameState_new, validate_game_state, validate_number_of_marks,
    validate_starting_mark, validate_winner. cbn [grid starting_mark].
  generalize (winner (mkGameState g sm)). generalize (x_count g) (o_count g).
  intros x o w. destruct sm; destruct w as [[|] |]; cbn;
    case_Z; cbn; intros Hraise; congruence.
Qed.

(** X10.  A game state is constructed exactly when the counts of the two
    marks differ by one at most, the mark in excess is the one that
    started, and a winner has just moved (one mark ahead when it started,
    level when it did not); the state constructed is the grid with the
    starting mark, and a refusal is always [InvalidGameState]. *)
Theorem game_state_construction (g : Grid) (sm : Mark) :
  (GameState_new g sm = Ok (mkGameState g sm) <-> consistent (mkGameState g sm)) /\
  (forall gs, GameState_new g sm = Ok gs -> gs = mkGameState g sm) /\
  (forall e, GameState_new g sm = Raise e -> e = InvalidGameState).
Proof.
  split; [| split].
  - rewrite GameState_new_Ok. intuition.
  - intros gs H. apply GameState_new_Ok in H. apply H.
  - apply GameState_new_Raise.
Qed.

Lemma player_with_turn (p1 p2 : ComputerPlayer) (gs : GameState) :
  player_mark p1 <> player_mark p2 ->
  player_mark (get_current_player (mkTicTacToe p1 p2) gs) = current_mark gs.
Proof.
  intros Hne. unfold get_current_player. cbn [player1 player2].
  destruct (Mark_eqb (current_mark gs) (player_mark p1)) eqn:E.
  - apply Mark_eqb_eq in E. congruence.
  - destruct (current_mark gs), (player_mark p1), (player_mark p2);
      try discriminate; try reflexivity; congruence.
Qed.

Lemma TicTacToe_new_Ok (p1 p2 : ComputerPlayer) (t : TicTacToe) :
  TicTacToe_new p1 p2 = Ok t ->
  t = mkTicTacToe p1 p2 /\ player_mark p1 <> player_mark p2.
Proof.
  unfold TicTacToe_new, validate_players.
  destruct (Mark_eqb (player_mark p1) (player_mark p2)) eqn:E; cbn [bind];
    [discriminate |].
  intros [= <-]. split; [reflexivity |]. intros H.
  apply Mark_eqb_eq in H. congruence.
Qed.

(** X11.  Two players of the same mark are refused with [ValueError]; in
    a game that was set up, [get_current_player] gives, in every state,
    the player whose mark is to move. *)
Theorem current_player_has_turn (p1 p2 : ComputerPlayer) :
  (TicTacToe_new p1 p2 = Raise ValueError <-> player_mark p1 = player_mark p2) /\
  (forall t, TicTacToe_new p1 p2 = Ok t ->
     t = mkTicTacToe p1 p2 /\
     forall gs, player_mark (get_current_player t gs) = current_mark gs).
Proof.
  split.
  - unfold TicTacToe_new, validate_players.
    destruct (Mark_eqb (player_mark p1) (player_mark p2)) eqn:E; cbn [bind].
    + apply Mark_eqb_eq in E. tauto.
    + split; [discriminate |]. intros H. apply Mark_eqb_eq in H. congruence.
  - intros t H. apply TicTacToe_new_Ok in H. destruct H as [-> Hne].
    split; [reflexivity |]. intros gs. apply player_with_turn. exact Hne.
Qed.

(** ** Moves, once more *)

Lemma make_move_to_fields (gs : GameState) (index : Z) (m : Move) :
  make_move_to gs index = Ok m ->
  mark m = current_mark gs /\ cell_index m = index /\ before_state m = gs /\
  starting_mark (after_state m) = starting_mark gs /\
  GameState_of (cells (grid (after_state m))) (starting_mark gs) = Ok (after_state m).
Proof.
  intros H. unfold make_move_to in H. inv_bind H.
  destruct (negb (char_eqb a c_space)); [discriminate |].
  inv_bind H. inv_bind H. injection H as <-.
  cbn [mark cell_index before_state after_state].
  pose proof Ha1 as Hnew. apply GameState_new_Ok in Hnew. destruct Hnew as [_ ->].
  pose proof Ha0 as Hgrid. apply Grid_new_Ok in Hgrid. destruct Hgrid as [_ ->].
  repeat split. unfold GameState_of. cbn [grid cells starting_mark].
  rewrite Ha0. cbn [bind]. exact Ha1.
Qed.

Lemma make_move_to_in_range (gs : GameState) (index : Z) (e : exn) :
  0 <= index < len (cells (grid gs)) ->
  make_move_to gs index = Raise e -> e <> IndexError.
Proof.
  intros Hi H. unfold make_move_to in H.
  destruct (nth_error (cells (grid gs)) (Z.to_nat index)) as [c |] eqn:Hn.
  - rewrite (getitem_of_nth _ _ _ (proj1 Hi) Hn) in H. cbn [bind] in H.
    destruct (negb (char_eqb c c_space)); [congruence |].
    destruct (Grid_new _) as [g | e'] eqn:Hg; cbn [bind] in H.
    + destruct (GameState_new g (starting_mark gs)) as [after | e''] eqn:Hs;
        cbn [bind] in H; [discriminate |].
      apply GameState_new_Raise in Hs. congruence.
    + apply Grid_new_Raise in Hg. destruct Hg as [-> _]. congruence.
  - apply nth_error_None in Hn. unfold len in Hi. lia.
Qed.

Lemma finditer_from_sorted (a : Re.atom) (s : str) (pos : Z) :
  StronglySorted Z.lt (Re.finditer_from a pos s).
Proof.
  revert pos. induction s as [| c s IH]; intros pos; [constructor |].
  simpl. destruct (Re.atom_matches a c); [| apply IH].
  constructor; [apply IH |].
  apply Forall_forall. intros i Hi. apply finditer_from_spec in Hi.
  destruct Hi as (d & Hle & _). lia.
Qed.

Lemma finditer_in_range (a : Re.atom) (s : str) (i : Z) :
  In i (Re.finditer a s) -> 0 <= i < len s.
Proof.
  intros Hi. apply finditer_from_spec in Hi. destruct Hi as (c & Hle & Hn & _).
  rewrite Z.sub_0_r in Hn.
  assert (Hlt : (Z.to_nat i < List.length s)%nat)
    by (apply nth_error_Some; congruence).
  unfold len. lia.
Qed.

Lemma collect_moves_indices (gs : GameState) (positions : list Z) (ms : list Move) :
  collect_moves gs positions = Ok ms ->
  List.map cell_index ms = positions /\
  Forall (fun m => make_move_to gs (cell_index m) = Ok m) ms.
Proof.
  revert ms. induction positions as [| i rest IH]; intros ms H.
  - injection H as <-. split; constructor.
  - cbn [collect_moves] in H. inv_bind H. inv_bind H. injection H as <-.
    destruct (IH _ Ha0) as [Hmap Hall].
    pose proof (make_move_to_fields _ _ _ Ha) as (_ & Hi & _).
    cbn [List.map]. rewrite Hmap, Hi. split; [reflexivity |].
    constructor; [rewrite Hi; exact Ha | exact Hall].
Qed.

Lemma collect_moves_Raise (gs : GameState) (positions : list Z) (e : exn) :
  collect_moves gs positions = Raise e ->
  exists i, In i positions /\ make_move_to gs i = Raise e.
Proof.
  induction positions as [| i rest IH]; intros H; [discriminate |].
  cbn [collect_moves] in H.
  destruct (make_move_to gs i) as [m | e'] eqn:Hm; cbn [bind] in H.
  - destruct (collect_moves gs rest) as [ms | e''] eqn:Hr; cbn [bind] in H;
      [discriminate |].
    injection H as ->. destruct (IH eq_refl) as (j & Hj & Hraise).
    exists j. split; [right; exact Hj | exact Hraise].
  - injection H as ->. exists i. split; [left; reflexivity | exact Hm].
Qed.

Lemma possible_moves_not_IndexError (gs : GameState) :
  possible_moves gs <> Raise IndexError.
Proof.
  unfold possible_moves. destruct (game_over gs); cbn [negb]; [discriminate |].
  intros H. apply collect_moves_Raise in H. destruct H as (i & Hi & Hraise).
  apply finditer_in_range in Hi.
  exact (make_move_to_in_range _ _ _ Hi Hraise eq_refl).
Qed.

(** X5.  Whatever the state, the moves [possible_moves] returns are in
    strictly ascending order of their cell; each is the move
    [make_move_to] gives on a space of the grid, carries the mark that is
    to move and the state it was made on, and leads to a state that
    passes the validation of grid and game state; and there is none once
    the game is over. *)
Theorem possible_moves_sound (gs : GameState) (ms : list Move) :
  possible_moves gs = Ok ms ->
  StronglySorted Z.lt (List.map cell_index ms) /\
  Forall (fun m =>
            make_move_to gs (cell_index m) = Ok m /\
            mark m = current_mark gs /\ before_state m = gs /\
            getitem (cells (grid gs)) (cell_index m) = Ok c_space /\
            after_state m = moved gs (Z.to_nat (cell_index m)) /\
            GameState_of (cells (grid (after_state m))) (starting_mark gs)
              = Ok (after_state m)) ms /\
  (game_over gs = true -> ms = []).
Proof.
  unfold possible_moves. intros H.
  destruct (game_over gs); cbn [negb] in H.
  - injection H as <-. repeat split; constructor.
  - apply collect_moves_indices in H. destruct H as [Hmap Hall].
    split; [rewrite Hmap; apply finditer_from_sorted |].
    split; [| discriminate].
    rewrite Forall_forall in Hall |- *. intros m Hm.
    pose proof (Hall m Hm) as Hmove.
    assert (Hpos : In (cell_index m) (Re.finditer (Re.One Re.Ws) (cells (grid gs))))
      by (rewrite <- Hmap; apply in_map; exact Hm).
    apply finditer_in_range in Hpos.
    destruct (make_move_to_fields _ _ _ Hmove) as (Hmark & _ & Hbefore & _ & Hafter).
    destruct (make_move_to_inv_nonneg _ _ _ (proj1 Hpos) Hmove) as [Hn Hmoved].
    repeat split; try assumption.
    apply getitem_of_nth; [lia | exact Hn].
Qed.

Lemma possible_moves_sound_witness :
  exists ms,
    possible_moves (mkGameState (mkGrid (lit "XOX OX   ")) CROSS) = Ok ms /\
    List.map cell_index ms = [3; 6; 7; 8] /\
    StronglySorted Z.lt (List.map cell_index ms).
Proof.
  eexists. split; [vm_compute; reflexivity |]. split; [reflexivity |].
  apply (possible_moves_sound (mkGameState (mkGrid (lit "XOX OX   ")) CROSS) _ eq_refl).
Defined.

(** X6.  A move that goes through on a valid grid adds one cell of the
    mover's mark and takes one space away: the count of the mover's mark
    grows by one, the count of the other mark stays, the count of empty
    cells falls by one, and the grid keeps its length. *)
Theorem make_move_to_counts (gs : GameState) (index : Z) (m : Move) :
  grid_ok (cells (grid gs)) ->
  make_move_to gs index = Ok m ->
  count (cells (grid (after_state m))) (mark_char (mark m))
    = count (cells (grid gs)) (mark_char (mark m)) + 1 /\
  count (cells (grid (after_state m))) (mark_char (other (mark m)))
    = count (cells (grid gs)) (mark_char (other (mark m))) /\
  empty_count (grid (after_state m)) = empty_count (grid gs) - 1 /\
  List.length (cells (grid (after_state m))) = List.length (cells (grid gs)).
Proof.
  intros Hg H. apply make_move_to_inv in H; [| exact Hg].
  cbv zeta in H. destruct H as (Hn & -> & _ & _).
  cbn [after_state mark]. unfold moved. cbn [grid cells].
  assert (Hlt : (position (cells (grid gs)) index < List.length (cells (grid gs)))%nat)
    by (apply nth_error_Some; congruence).
  rewrite !(count_set_at _ _ _ _ _ Hn), set_at_length by exact Hlt.
  unfold empty_count. cbn [cells]. rewrite (count_set_at _ _ _ _ _ Hn).
  destruct (current_mark gs); cbn; repeat split; lia.
Qed.

Lemma make_move_to_counts_witness :
  exists m,
    make_move_to (initial CROSS) 4 = Ok m /\
    x_count (grid (after_state m)) = 1 /\ o_count (grid (after_state m)) = 0 /\
    empty_count (grid (after_state m)) = 8.
Proof.
  eexists. split; [vm_compute; reflexivity |].
  pose proof (make_move_to_counts (initial CROSS) 4 _ eq_refl eq_refl) as H.
  destruct H as (H1 & H2 & H3 & _).
  split; [exact H1 |]. split; [exact H2 | exact H3].
Defined.

(** ** Random moves and the loop of play *)

Lemma random_choice_In {A : Type} (r : nat) (l : list A) (a : A) :
  random_choice r l = Ok a -> In a l.
Proof.
  unfold random_choice. destruct l as [| b l]; [discriminate |].
  destruct (nth_error (b :: l) (r mod List.length (b :: l))) as [c |] eqn:E;
    [| discriminate].
  intros [= <-]. eapply nth_error_In. exact E.
Qed.

Lemma random_choice_nonempty {A : Type} (r : nat) (l : list A) :
  l <> [] -> exists a, random_choice r l = Ok a.
Proof.
  intros Hl. unfold random_choice. destruct l as [| b l]; [congruence |].
  destruct (nth_error (b :: l) (r mod List.length (b :: l))) as [c |] eqn:E;
    [eauto |].
  apply nth_error_None in E.
  pose proof (Nat.mod_upper_bound r (List.length (b :: l))) as Hlt.
  cbn [List.length] in *. lia.
Qed.

(** X9.  [make_random_move] gives no move exactly when there is none to
    choose from, as when the game is over; otherwise it gives one of the
    possible moves, whatever the draw; and an exception of
    [possible_moves] goes through it unchanged. *)
Theorem make_random_move_spec (gs : GameState) (r : nat) :
  (game_over gs = true -> make_random_move gs r = Ok None) /\
  (forall ms, possible_moves gs = Ok ms ->
     (ms = [] -> make_random_move gs r = Ok None) /\
     (ms <> [] -> exists m, make_random_move gs r = Ok (Some m) /\ In m ms)) /\
  (forall e, possible_moves gs = Raise e -> make_random_move gs r = Raise e).
Proof.
  unfold make_random_move. split; [| split].
  - intros Hover. unfold possible_moves. rewrite Hover. reflexivity.
  - intros ms Hms. rewrite Hms. cbn [bind]. split.
    + intros ->. reflexivity.
    + intros Hne. destruct (random_choice_nonempty r ms Hne) as (m & Hm).
      rewrite Hm. exists m. split; [reflexivity |].
      eapply random_choice_In. exact Hm.
  - intros e He. pose proof (possible_moves_not_IndexError gs) as Hidx.
    rewrite He in *. cbn [bind]. destruct e; try reflexivity. congruence.
Qed.

Lemma play_loop_ends (self : TicTacToe) (rnd : nat -> nat) (fuel t : nat)
    (gs final : GameState) :
  play_loop self rnd fuel t gs = Some (Ok final) -> game_over final = true.
Proof.
  revert t gs. induction fuel as [| fuel IH]; intros t gs H; [discriminate |].
  rewrite play_loop_step in H.
  destruct (game_over gs) eqn:Hover; [congruence |].
  destruct (make_move (get_current_player self gs) (S fuel) gs (rnd t))
    as [[next | e] |]; [eauto | | discriminate].
  destruct e; try discriminate. eauto.
Qed.

(** X14.  Whoever the two players are and whatever they draw, a state
    [play] ends on is a state whose game is over: the loop never stops on
    an unfinished game. *)
Theorem play_ends_on_game_over (self : TicTacToe) (rnd : nat -> nat)
    (fuel : nat) (sm : Mark) (final : GameState) :
  play self rnd fuel sm = Some (Ok final) -> game_over final = true.
Proof.
  unfold play.
  destruct (g <- Grid_new (repeat c_space 9) ;; GameState_new g sm)
    as [gs | e]; [| discriminate].
  apply play_loop_ends.
Qed.

Lemma play_ends_on_game_over_witness :
  exists final,
    play (mkTicTacToe (RandomComputerPlayer CROSS) (RandomComputerPlayer NAUGHT))
      (fun _ => 0%nat) 10 NAUGHT = Some (Ok final) /\
    game_over final = true.
Proof.
  eexists. split; [vm_compute; reflexivity |].
  apply (play_ends_on_game_over
           (mkTicTacToe (RandomComputerPlayer CROSS) (RandomComputerPlayer NAUGHT))
           (fun _ => 0%nat) 10 NAUGHT).
  vm_compute. reflexivity.
Defined.

(** ** The winner and its cells *)

Lemma pattern_with_line (p : str) :
  In p WINNING_PATTERNS ->
  In (p, Re.finditer (Re.One (Re.Chr c_qmark)) p)
     (combine WINNING_PATTERNS WINNING_LINES).
Proof.
  intros Hp. simpl in Hp.
  repeat (destruct Hp as [<- | Hp]; [vm_compute; auto 10 |]). contradiction.
Qed.

Lemma match_str_length (p s : str) :
  Re.match_str p s = true -> (List.length p <= List.length s)%nat.
Proof.
  revert s. induction p as [| q p IH]; intros s H; [simpl; lia |].
  destruct s as [| c s]; [discriminate |]. cbn [Re.match_str] in H.
  destruct (Re.atom_matches (Re.atom_of q) c); [| discriminate].
  apply IH in H. simpl. lia.
Qed.

Lemma pattern_positions_hold (p : str) (l : list Z) (m : Mark) (cs : str) (i : Z) :
  In (p, l) (combine WINNING_PATTERNS WINNING_LINES) ->
  pattern_matches p m cs = true ->
  In i l -> getitem cs i = Ok (mark_char m).
Proof.
  intros Hin Hm Hi. unfold pattern_matches in Hm. simpl in Hin.
  repeat (destruct Hin as [[= <- <-] | Hin];
    [ destruct m;
      pose proof (match_str_length _ _ Hm) as Hlen;
      do 9 (destruct cs as [| ? cs]; [simpl in Hlen; lia |]);
      clear Hlen; cbn in Hm;
      repeat match type of Hm with
        | (if ?b then _ else false) = true =>
            destruct b eqn:?; [| discriminate Hm]
        end;
      repeat match goal with
        | E : char_eqb _ _ = true |- _ => apply N.eqb_eq in E; subst
        end;
      simpl in Hi;
      repeat (destruct Hi as [<- | Hi];
              [apply getitem_of_nth; [lia | reflexivity] |]);
      contradiction |]).
  contradiction.
Qed.

(** X4.  In every state [winning_cells] goes with [winner]: it is empty
    exactly when there is no winner, and when a mark has won it is one of
    the eight lines, each cell of which holds that mark. *)
Theorem winning_cells_hold_winner (gs : GameState) :
  (winner gs = None <-> winning_cells gs = []) /\
  (forall m, winner gs = Some m ->
     In (winning_cells gs) WINNING_LINES /\
     forall i, In i (winning_cells gs) ->
               getitem (cells (grid gs)) i = Ok (mark_char m)).
Proof.
  pose proof (fun p l m i => pattern_positions_hold p l m (cells (grid gs)) i) as Hold.
  unfold winner, winning_cells, WINNING_PATTERNS, Marks.
  cbn [for_return].
  repeat (match goal with
          | |- context [if pattern_matches ?p ?m ?s then _ else _] =>
              let E := fresh "E" in
              destruct (pattern_matches p m s) eqn:E; cbv beta iota;
              [ split;
                [ split; discriminate
                | intros m' [= <-]; split;
                  [ vm_compute; auto 10
                  | intros i Hi;
                    exact (Hold p _ m i
                             (pattern_with_line p ltac:(simpl; auto 10)) E Hi) ] ]
              | ]
          end).
  split; [split; reflexivity | discriminate].
Qed.

(** ** The start and the end of a game *)

Lemma count_upper (s : str) (c : char) : count s c <= len s.
Proof.
  unfold len. induction s as [| d s IH]; cbn [count List.length];
    [lia | destruct (char_eqb d c); lia].
Qed.

Lemma count_all (s : str) (c : char) :
  count s c = len s -> s = repeat c (List.length s).
Proof.
  induction s as [| d s IH]; intros H; [reflexivity |].
  pose proof (count_upper s c) as Hup. unfold len in *.
  cbn [count List.length] in H. cbn [List.length repeat].
  destruct (char_eqb d c) eqn:E; [| lia].
  apply N.eqb_eq in E. subst d. f_equal. apply IH. lia.
Qed.

Lemma count_repeat (c : char) (n : nat) : count (repeat c n) c = Z.of_nat n.
Proof.
  induction n as [| n IH]; [reflexivity |].
  cbn [repeat count]. unfold char_eqb. rewrite N.eqb_refl, IH. lia.
Qed.

(** The cells of a valid grid: nine of them, and a newline after them at
    most. *)
Lemma grid_ok_cells (cs : str) :
  grid_ok cs ->
  List.length (firstn 9 cs) = 9%nat /\
  (cs = firstn 9 cs \/ cs = firstn 9 cs ++ [LF]).
Proof.
  intros Hg. pose proof (grid_ok_length _ Hg) as Hl.
  split; [rewrite length_firstn; lia |].
  destruct Hl as [Hl | Hl].
  - left. symmetry. apply firstn_all2. lia.
  - right. pose proof (match_dollar_last _ _ Hg) as Hlast.
    change (List.length grid_pattern) with 9%nat in Hlast.
    specialize (Hlast ltac:(lia)).
    rewrite <- (firstn_skipn 9 cs) at 1. f_equal.
    assert (Hs : List.length (skipn 9 cs) = 1%nat) by (rewrite length_skipn; lia).
    rewrite <- (firstn_skipn 9 cs), nth_error_app2 in Hlast
      by (rewrite length_firstn; lia).
    rewrite length_firstn in Hlast.
    replace (9 - Nat.min 9 (List.length cs))%nat with 0%nat in Hlast by lia.
    destruct (skipn 9 cs) as [| c [| d l]]; try discriminate.
    simpl in Hlast. congruence.
Qed.

(** X7.  On a constructed state the game has not started exactly when
    the nine cells are all spaces; it is then the turn of the starting
    mark, there is no winner and the game is not over. *)
Theorem game_not_started_spec (cs : str) (sm : Mark) (gs : GameState) :
  GameState_of cs sm = Ok gs ->
  (game_not_started gs = true <-> firstn 9 cs = repeat c_space 9) /\
  (game_not_started gs = true ->
   current_mark gs = sm /\ winner gs = None /\ game_over gs = false).
Proof.
  intros H. apply GameState_of_Ok in H. destruct H as (Hg & _ & ->).
  destruct (grid_ok_cells _ Hg) as [Hlen Hcs].
  assert (Hcount : count cs c_space = count (firstn 9 cs) c_space).
  { destruct Hcs as [E | E]; rewrite E at 1; [reflexivity |].
    rewrite count_app. simpl. lia. }
  assert (Hiff : game_not_started (mkGameState (mkGrid cs) sm) = true
                 <-> firstn 9 cs = repeat c_space 9).
  { unfold game_not_started, empty_count. cbn [grid cells].
    rewrite Z.eqb_eq, Hcount. split.
    - intros H9. rewrite <- Hlen at 2. apply count_all. unfold len. lia.
    - intros ->. apply (count_repeat c_space 9). }
  split; [exact Hiff |]. intros Hns. apply Hiff in Hns.
  destruct Hcs as [E | E]; rewrite E, Hns; destruct sm; repeat split.
Qed.

Lemma game_not_started_spec_witness :
  game_not_started (initial NAUGHT) = true /\ current_mark (initial NAUGHT) = NAUGHT.
Proof.
  destruct (game_not_started_spec (repeat c_space 9) NAUGHT (initial NAUGHT) eq_refl)
    as [Hiff Hcons].
  assert (Hns : game_not_started (initial NAUGHT) = true)
    by (apply Hiff; reflexivity).
  split; [exact Hns | apply (Hcons Hns)].
Defined.

(** X8.  A tie on a constructed state of nine cells of cross, naught and
    space is a full board on which the mark that started holds five cells
    and the other mark four. *)
Theorem tie_is_five_to_four (cs : str) (sm : Mark) (gs : GameState) :
  GameState_of cs sm = Ok gs -> plain cs = true -> tie gs = true ->
  count cs (mark_char sm) = 5 /\ count cs (mark_char (other sm)) = 4 /\
  count cs c_space = 0.
Proof.
  intros H Hp Htie. apply GameState_of_Ok in H. destruct H as (_ & Hc & ->).
  unfold plain in Hp. apply andb_true_iff in Hp. destruct Hp as [Hl Hp].
  apply Nat.eqb_eq in Hl. pose proof (plain_counts _ Hp) as Hsum.
  unfold len in Hsum. rewrite Hl in Hsum.
  unfold tie in Htie. destruct (winner _); cbn [is_none] in Htie; [discriminate |].
  apply Z.eqb_eq in Htie. unfold empty_count in Htie. cbn [grid cells] in Htie.
  destruct Hc as [Hb Hx Ho _ _]. unfold x_count, o_count in *.
  cbn [grid cells starting_mark] in *.
  destruct sm; cbn [mark_char other]; repeat split; try assumption.
  - destruct (Z_le_gt_dec (count cs c_O) (count cs c_X)) as [L | G];
      [lia | specialize (Ho G); discriminate].
  - destruct (Z_le_gt_dec (count cs c_O) (count cs c_X)) as [L | G];
      [lia | specialize (Ho G); discriminate].
  - destruct (Z_le_gt_dec (count cs c_X) (count cs c_O)) as [L | G];
      [lia | specialize (Hx G); discriminate].
  - destruct (Z_le_gt_dec (count cs c_X) (count cs c_O)) as [L | G];
      [lia | specialize (Hx G); discriminate].
Qed.

Lemma tie_is_five_to_four_witness :
  count (lit "XOXOXOOXO") (mark_char NAUGHT) = 5 /\
  count (lit "XOXOXOOXO") (mark_char CROSS) = 4.
Proof.
  destruct (tie_is_five_to_four (lit "XOXOXOOXO") NAUGHT
              (mkGameState (mkGrid (lit "XOXOXOOXO")) NAUGHT)
              eq_refl eq_refl eq_refl) as (H5 & H4 & _).
  split; [exact H5 | exact H4].
Defined.

(** ** Random players *)

Lemma plain_grid_ok (cs : str) : plain cs = true -> grid_ok cs.
Proof.
  unfold plain. intros H. apply andb_true_iff in H. destruct H as [Hl Hp].
  apply Nat.eqb_eq in Hl. apply (match_repeat_class 9 cs Hl Hp).
Qed.

Lemma plain_set_at (cs : str) (i : nat) (m : Mark) :
  plain cs = true -> (i < List.length cs)%nat ->
  plain (set_at i (mark_char m) cs) = true.
Proof.
  unfold plain. intros H Hi. apply andb_true_iff in H. destruct H as [Hl Hp].
  apply andb_true_iff. split; [rewrite set_at_length by exact Hi; exact Hl |].
  unfold set_at. rewrite forallb_app. cbn [forallb].
  rewrite <- (firstn_skipn i cs), forallb_app in Hp.
  apply andb_true_iff in Hp. destruct Hp as [Hfirst Hrest].
  rewrite Hfirst. cbn [andb].
  replace (plain_cell (mark_char m)) with true by (destruct m; reflexivity).
  cbn [andb].
  rewrite <- (firstn_skipn 1 (skipn i cs)), forallb_app in Hrest.
  apply andb_true_iff in Hrest. destruct Hrest as [_ Hrest].
  rewrite skipn_skipn in Hrest. exact Hrest.
Qed.

Lemma current_mark_moved (gs : GameState) (i : nat) :
  consistent gs -> nth_error (cells (grid gs)) i = Some c_space ->
  current_mark (moved gs i) = other (current_mark gs).
Proof.
  intros [Hb Hx Ho _ _] Hn.
  unfold current_mark at 1, moved. cbn [grid cells starting_mark].
  unfold x_count, o_count in *. cbn [cells].
  rewrite (x_count_set_at _ _ _ Hn), (o_count_set_at _ _ _ Hn).
  unfold current_mark, x_count, o_count.
  destruct (Z.eqb_spec (count (cells (grid gs)) c_X) (count (cells (grid gs)) c_O))
    as [E | E].
  - destruct (starting_mark gs); simpl;
      match goal with |- context [Z.eqb ?a ?b] => destruct (Z.eqb_spec a b) end;
      try reflexivity; lia.
  - destruct (starting_mark gs); simpl;
      match goal with |- context [Z.eqb ?a ?b] => destruct (Z.eqb_spec a b) end;
      try reflexivity; exfalso;
      destruct (Z_le_gt_dec (count (cells (grid gs)) c_X)
                  (count (cells (grid gs)) c_O)) as [L | G];
      try (specialize (Hx G); discriminate);
      try (assert (G' : count (cells (grid gs)) c_O > count (cells (grid gs)) c_X)
             by lia;
           specialize (Ho G'); discriminate);
      lia.
Qed.

Lemma well_formed_moved (gs : GameState) (i : nat) :
  well_formed gs -> winner gs = None ->
  nth_error (cells (grid gs)) i = Some c_space ->
  well_formed (moved gs i).
Proof.
  intros [Hp Hc] Hw Hn. split.
  - unfold moved. cbn [grid cells]. apply plain_set_at; [exact Hp |].
    apply nth_error_Some. congruence.
  - apply consistent_moved; assumption.
Qed.

Lemma well_formed_GameState_of (gs : GameState) :
  well_formed gs ->
  GameState_of (cells (grid gs)) (starting_mark gs) = Ok gs.
Proof.
  intros [Hp Hc]. apply GameState_of_Ok.
  split; [apply plain_grid_ok; exact Hp |]. split; [exact Hc |].
  destruct gs as [[cs] sm]. reflexivity.
Qed.

Lemma well_formed_initial (sm : Mark) : well_formed (initial sm).
Proof.
  split; [reflexivity |].
  apply validate_game_state_Ok. destruct sm; reflexivity.
Qed.

Lemma finditer_from_nil (a : Re.atom) (s : str) (pos : Z) (c : char) :
  Re.finditer_from a pos s = [] -> In c s -> Re.atom_matches a c = false.
Proof.
  revert pos. induction s as [| d s IH]; intros pos H Hc; [contradiction |].
  simpl in H. destruct (Re.atom_matches a d) eqn:Hd; [discriminate |].
  destruct Hc as [<- | Hc]; [exact Hd | exact (IH _ H Hc)].
Qed.

Lemma count_positive_In (s : str) (c : char) : count s c <> 0 -> In c s.
Proof.
  induction s as [| d s IH]; intros H; [contradiction |].
  cbn [count] in H. destruct (char_eqb d c) eqn:E.
  - left. apply N.eqb_eq. exact E.
  - right. apply IH. lia.
Qed.

(** On a well-formed state whose game goes on, the random move lands on
    a space, whatever the draw. *)
Lemma random_move_step (gs : GameState) (r : nat) :
  well_formed gs -> game_over gs = false ->
  exists mv i,
    make_random_move gs r = Ok (Some mv) /\
    nth_error (cells (grid gs)) i = Some c_space /\
    after_state mv = moved gs i.
Proof.
  intros Hwf Hover. pose proof (well_formed_GameState_of _ Hwf) as Hof.
  destruct Hwf as [Hp Hc].
  destruct (possible_moves_plain _ _ _ Hof Hp) as [_ Hms].
  destruct (Hms Hover) as (ms & Hposs & Hmap & Hall).
  assert (Hne : ms <> []).
  { intros ->. cbn [List.map] in Hmap. symmetry in Hmap.
    assert (Hempty : empty_count (grid gs) <> 0).
    { unfold game_over, tie in Hover. destruct (winner gs); [discriminate |].
      cbn [is_none negb] in Hover. apply Z.eqb_neq. exact Hover. }
    apply count_positive_In in Hempty.
    pose proof (finditer_from_nil _ _ _ _ Hmap Hempty) as Hno. discriminate Hno. }
  destruct (random_choice_nonempty r ms Hne) as (mv & Hmv).
  pose proof (random_choice_In _ _ _ Hmv) as Hin.
  rewrite Forall_forall in Hall. pose proof (Hall _ Hin) as Hmove.
  assert (Hpos : In (cell_index mv) (Re.finditer (Re.One (Re.Chr c_space)) (cells (grid gs))))
    by (rewrite <- Hmap; apply in_map; exact Hin).
  apply finditer_in_range in Hpos.
  destruct (make_move_to_inv_nonneg _ _ _ (proj1 Hpos) Hmove) as [Hn Hafter].
  exists mv, (Z.to_nat (cell_index mv)).
  split; [| split; assumption].
  unfold make_random_move. rewrite Hposs. cbn [bind]. rewrite Hmv. reflexivity.
Qed.

(** X12.  [make_move] of a random player on a well-formed state: when it
    is the player's turn and the game goes on, the player moves, to a
    well-formed state with the same starting mark, one space fewer and
    the turn passed to the other mark; when it is not the player's turn,
    or the game is over, the call fails with [InvalidMove]. *)
Theorem random_player_make_move (m : Mark) (fuel : nat) (gs : GameState) (r : nat) :
  well_formed gs ->
  (m = current_mark gs -> game_over gs = false ->
   exists next,
     make_move (RandomComputerPlayer m) fuel gs r = Some (Ok next) /\
     well_formed next /\ starting_mark next = starting_mark gs /\
     current_mark next = other m /\
     empty_count (grid next) = empty_count (grid gs) - 1) /\
  (m <> current_mark gs \/ game_over gs = true ->
   make_move (RandomComputerPlayer m) fuel gs r = Some (Raise InvalidMove)).
Proof.
  intros Hwf. unfold make_move, get_move, get_computer_move. cbn [player_mark].
  split.
  - intros -> Hover. rewrite Mark_eqb_refl.
    destruct (random_move_step gs r Hwf Hover) as (mv & i & Hmv & Hn & Hafter).
    rewrite Hmv. exists (after_state mv). split; [reflexivity |].
    rewrite Hafter. split; [| split; [reflexivity | split]].
    + apply well_formed_moved; [exact Hwf | apply game_over_false; exact Hover | exact Hn].
    + apply current_mark_moved; [apply Hwf | exact Hn].
    + apply empty_count_moved. exact Hn.
  - intros [Hne | Hover].
    + destruct (Mark_eqb m (current_mark gs)) eqn:E; [| reflexivity].
      apply Mark_eqb_eq in E. contradiction.
    + destruct (Mark_eqb m (current_mark gs)); [| reflexivity].
      unfold make_random_move, possible_moves. rewrite Hover. reflexivity.
Qed.

Lemma random_player_make_move_witness :
  exists next,
    make_move (RandomComputerPlayer CROSS) 0 (initial CROSS) 4 = Some (Ok next) /\
    current_mark next = NAUGHT /\
    make_move (RandomComputerPlayer NAUGHT) 0 (initial CROSS) 4
      = Some (Raise InvalidMove).
Proof.
  destruct (random_player_make_move CROSS 0 (initial CROSS) 4
              (well_formed_initial CROSS)) as [Hmove _].
  destruct (Hmove eq_refl eq_refl) as (next & Hnext & _ & _ & Hturn & _).
  destruct (random_player_make_move NAUGHT 0 (initial CROSS) 4
              (well_formed_initial CROSS)) as [_ Hfail].
  exists next. split; [exact Hnext |]. split; [exact Hturn |].
  apply Hfail. left. discriminate.
Defined.

Lemma random_play_loop_ends (p1 p2 : Mark) (rnd : nat -> nat) (fuel t : nat)
    (gs : GameState) :
  p1 <> p2 -> well_formed gs ->
  empty_count (grid gs) < Z.of_nat fuel ->
  exists final,
    play_loop (mkTicTacToe (RandomComputerPlayer p1) (RandomComputerPlayer p2))
      rnd fuel t gs = Some (Ok final) /\
    game_over final = true /\ well_formed final /\
    starting_mark final = starting_mark gs.
Proof.
  intros Hne. revert t gs. induction fuel as [| fuel IH]; intros t gs Hwf Hfuel.
  - pose proof (count_nonneg (cells (grid gs)) c_space). unfold empty_count in Hfuel.
    simpl in Hfuel. lia.
  - rewrite play_loop_step. destruct (game_over gs) eqn:Hover.
    + exists gs. auto.
    + set (self := mkTicTacToe (RandomComputerPlayer p1) (RandomComputerPlayer p2)).
      assert (Hturn : player_mark (get_current_player self gs) = current_mark gs)
        by (apply player_with_turn; exact Hne).
      assert (Hkind : exists m, get_current_player self gs = RandomComputerPlayer m).
      { unfold get_current_player, self. cbn [player1 player2].
        destruct (Mark_eqb _ _); eauto. }
      destruct Hkind as (m & Hm). rewrite Hm in Hturn |- *. cbn [player_mark] in Hturn.
      destruct (random_move_step gs (rnd t) Hwf Hover) as (mv & i & Hmv & Hn & Hafter).
      unfold make_move, get_move, get_computer_move. cbn [player_mark].
      rewrite Hturn, Mark_eqb_refl, Hmv, Hafter.
      destruct (IH (S t) (moved gs i)) as (final & Hplay & Hfin & Hwff & Hsm).
      * apply well_formed_moved; [exact Hwf | apply game_over_false; exact Hover | exact Hn].
      * rewrite (empty_count_moved _ _ Hn). lia.
      * exists final. auto.
Qed.

(** X13.  Two random players of different marks always finish their
    game: whichever mark starts and whatever the draws, [play] ends
    within ten rounds of its loop, without an exception, on a well-formed
    state whose game is over. *)
Theorem random_play_ends (p1 p2 : Mark) (rnd : nat -> nat) (sm : Mark) :
  p1 <> p2 ->
  exists final,
    play (mkTicTacToe (RandomComputerPlayer p1) (RandomComputerPlayer p2))
      rnd 10 sm = Some (Ok final) /\
    game_over final = true /\ well_formed final /\ starting_mark final = sm.
Proof.
  intros Hne. unfold play.
  assert (Hinit : (g <- Grid_new (repeat c_space 9) ;; GameState_new g sm)
                  = Ok (initial sm)) by (destruct sm; reflexivity).
  rewrite Hinit.
  apply (random_play_loop_ends p1 p2 rnd 10 0 (initial sm) Hne (well_formed_initial sm)).
  destruct sm; reflexivity.
Qed.

Lemma random_play_ends_witness :
  exists final,
    play (mkTicTacToe (RandomComputerPlayer NAUGHT) (RandomComputerPlayer CROSS))
      (fun t => (3 * t)%nat) 10 CROSS = Some (Ok final) /\
    game_over final = true.
Proof.
  destruct (random_play_ends NAUGHT CROSS (fun t => (3 * t)%nat) CROSS
              ltac:(discriminate)) as (final & Hplay & Hover & _).
  exists final. split; [exact Hplay | exact Hover].
Defined.

(** ** The console player *)

Lemma class_matches_In (l : list char) (c : char) :
  Re.class_matches (List.map Re.Chr l) c = true <-> In c l.
Proof.
  induction l as [| d l IH]; cbn [List.map Re.class_matches Re.item_matches In].
  - split; [discriminate | contradiction].
  - destruct (char_eqb c d) eqn:E.
    + apply N.eqb_eq in E. subst d. tauto.
    + apply N.eqb_neq in E. rewrite IH. split; [auto | intros [H | H]; congruence].
Qed.

Lemma letter_In (c : char) :
  Re.atom_matches Console.letters c = true <-> In c (lit "abcABC").
Proof. apply class_matches_In. Qed.

Lemma digit_In (c : char) :
  Re.atom_matches Console.digits c = true <-> In c (lit "123").
Proof. apply class_matches_In. Qed.

Lemma letter_not_digit (c : char) :
  In c (lit "abcABC") -> Re.atom_matches Console.digits c = false.
Proof.
  intros H. simpl in H.
  repeat (destruct H as [<- | H]; [reflexivity |]). contradiction.
Qed.

Lemma index_of_cell (row col : char) :
  In row (lit "123") -> In col (lit "abcABC") ->
  Console.index_of row col
    = Ok (3 * (Console.ord row - 49) + (Console.ord (Console.upper col) - 65)) /\
  0 <= 3 * (Console.ord row - 49) + (Console.ord (Console.upper col) - 65) < 9.
Proof.
  intros Hr Hc. simpl in Hr, Hc.
  repeat (destruct Hr as [<- | Hr]; [| try contradiction]);
    repeat (destruct Hc as [<- | Hc]; [| try contradiction]);
    (split; [reflexivity | vm_compute; split; [discriminate | reflexivity]]).
Qed.

Lemma grid_to_index_two (a b : char) :
  Console.grid_to_index [a; b] =
  if Re.atom_matches Console.letters a && Re.atom_matches Console.digits b
  then Console.index_of b a
  else if Re.atom_matches Console.digits a && Re.atom_matches Console.letters b
       then Console.index_of a b
       else Raise ValueError.
Proof.
  unfold Console.grid_to_index. cbn [Re.match_ Console.unpack2 bind].
  destruct (Re.atom_matches Console.letters a),
           (Re.atom_matches Console.digits b),
           (Re.atom_matches Console.digits a),
           (Re.atom_matches Console.letters b); reflexivity.
Qed.

Lemma grid_to_index_other_length (grid : str) :
  List.length grid <> 2%nat -> Console.grid_to_index grid = Raise ValueError.
Proof.
  intros Hl. unfold Console.grid_to_index.
  destruct grid as [| a [| b [| c rest]]]; try reflexivity.
  - cbn [Re.match_]. destruct (Re.atom_matches Console.letters a),
      (Re.atom_matches Console.digits a); reflexivity.
  - simpl in Hl. congruence.
  - cbn [Re.match_ Console.unpack2 bind].
    destruct (Re.atom_matches Console.letters a),
             (Re.atom_matches Console.digits b),
             (Re.atom_matches Console.digits a),
             (Re.atom_matches Console.letters b); reflexivity.
Qed.

(** The coordinates [grid_to_index] reads: a column letter and a row
    digit, in either order. *)
Lemma grid_to_index_Ok (grid : str) (i : Z) :
  Console.grid_to_index grid = Ok i <->
  exists col row,
    In col (lit "abcABC") /\ In row (lit "123") /\
    (grid = [col; row] \/ grid = [row; col]) /\
    i = 3 * (Console.ord row - 49) + (Console.ord (Console.upper col) - 65).
Proof.
  split.
  - intros H.
    destruct (Nat.eq_dec (List.length grid) 2) as [Hl | Hl];
      [| rewrite grid_to_index_other_length in H by exact Hl; discriminate].
    destruct grid as [| a [| b [| c rest]]]; try discriminate Hl.
    rewrite grid_to_index_two in H.
    destruct (Re.atom_matches Console.letters a) eqn:La,
             (Re.atom_matches Console.digits b) eqn:Db; cbn [andb] in H;
      try (apply letter_In in La; apply digit_In in Db;
           destruct (index_of_cell b a Db La) as [E _]; rewrite E in H;
           injection H as <-; exists a, b; auto);
      (destruct (Re.atom_matches Console.digits a) eqn:Da,
                (Re.atom_matches Console.letters b) eqn:Lb; cbn [andb] in H;
       try discriminate H;
       apply digit_In in Da; apply letter_In in Lb;
       destruct (index_of_cell a b Da Lb) as [E _]; rewrite E in H;
       injection H as <-; exists b, a; auto).
  - intros (col & row & Hc & Hr & Hg & ->).
    destruct (index_of_cell row col Hr Hc) as [E _].
    destruct Hg as [-> | ->]; rewrite grid_to_index_two.
    + apply letter_In in Hc. apply digit_In in Hr. rewrite Hc, Hr. exact E.
    + rewrite (letter_not_digit col Hc), andb_false_r.
      apply letter_In in Hc. apply digit_In in Hr. rewrite Hc, Hr. exact E.
Qed.

Lemma grid_to_index_range (grid : str) (i : Z) :
  Console.grid_to_index grid = Ok i -> 0 <= i < 9.
Proof.
  intros H. apply grid_to_index_Ok in H.
  destruct H as (col & row & Hc & Hr & _ & ->).
  apply (index_of_cell row col Hr Hc).
Qed.

Lemma grid_to_index_Raise (grid : str) (e : exn) :
  Console.grid_to_index grid = Raise e -> e = ValueError.
Proof.
  intros H.
  destruct (Nat.eq_dec (List.length grid) 2) as [Hl | Hl];
    [| rewrite grid_to_index_other_length in H by exact Hl; congruence].
  destruct grid as [| a [| b [| c rest]]]; try discriminate Hl.
  rewrite grid_to_index_two in H.
  destruct (Re.atom_matches Console.letters a) eqn:La,
           (Re.atom_matches Console.digits b) eqn:Db; cbn [andb] in H;
    try (apply letter_In in La; apply digit_In in Db;
         destruct (index_of_cell b a Db La) as [E _]; rewrite E in H;
         discriminate H);
    (destruct (Re.atom_matches Console.digits a) eqn:Da,
              (Re.atom_matches Console.letters b) eqn:Lb; cbn [andb] in H;
     try congruence;
     apply digit_In in Da; apply letter_In in Lb;
     destruct (index_of_cell a b Da Lb) as [E _]; rewrite E in H;
     discriminate H).
Qed.

(** X15.  [grid_to_index] reads exactly the strings of two characters
    made of a column letter, a to c in either case, and a row digit, 1 to
    3, in either order; the index is three times the row, counted from
    zero, plus the column, so it lies from 0 to 8; every other string,
    longer ones that begin with coordinates included, is refused with
    [ValueError]. *)
Theorem grid_to_index_spec (grid : str) :
  (forall i,
     Console.grid_to_index grid = Ok i <->
     exists col row,
       In col (lit "abcABC") /\ In row (lit "123") /\
       (grid = [col; row] \/ grid = [row; col]) /\
       i = 3 * (Console.ord row - 49) + (Console.ord (Console.upper col) - 65)) /\
  (forall i, Console.grid_to_index grid = Ok i -> 0 <= i < 9) /\
  (forall e, Console.grid_to_index grid = Raise e -> e = ValueError) /\
  (List.length grid <> 2%nat -> Console.grid_to_index grid = Raise ValueError).
Proof.
  split; [intros i; apply grid_to_index_Ok |].
  split; [apply grid_to_index_range |].
  split; [apply grid_to_index_Raise | apply grid_to_index_other_length].
Qed.

(** X16.  Every cell has a name and the name tells the cell: each index
    from 0 to 8 is read off some column letter and row digit; the order
    of the two and the case of the letter do not matter; and two names
    read as the same index have the same row and, up to case, the same
    column. *)
Theorem grid_to_index_names (col row : char) :
  In col (lit "abcABC") -> In row (lit "123") ->
  Console.grid_to_index [row; col] = Console.grid_to_index [col; row] /\
  Console.grid_to_index [Console.upper col; row] = Console.grid_to_index [col; row] /\
  (forall col' row',
     In col' (lit "abcABC") -> In row' (lit "123") ->
     Console.grid_to_index [col'; row'] = Console.grid_to_index [col; row] ->
     row' = row /\ Console.upper col' = Console.upper col) /\
  (forall i, 0 <= i < 9 ->
     exists c r, In c (lit "ABC") /\ In r (lit "123") /\
                 Console.grid_to_index [c; r] = Ok i).
Proof.
  intros Hc Hr. split; [| split; [| split]].
  - simpl in Hc, Hr.
    repeat (destruct Hr as [<- | Hr]; [| try contradiction]);
      repeat (destruct Hc as [<- | Hc]; [| try contradiction]); reflexivity.
  - simpl in Hc, Hr.
    repeat (destruct Hr as [<- | Hr]; [| try contradiction]);
      repeat (destruct Hc as [<- | Hc]; [| try contradiction]); reflexivity.
  - intros col' row' Hc' Hr' H. simpl in Hc, Hr, Hc', Hr'.
    repeat (destruct Hr as [<- | Hr]; [| try contradiction]);
      repeat (destruct Hc as [<- | Hc]; [| try contradiction]);
      repeat (destruct Hr' as [<- | Hr']; [| try contradiction]);
      repeat (destruct Hc' as [<- | Hc']; [| try contradiction]);
      first [split; reflexivity | vm_compute in H; discriminate H].
  - intros i Hi.
    assert (Hcases : i = 0 \/ i = 1 \/ i = 2 \/ i = 3 \/ i = 4 \/ i = 5
                     \/ i = 6 \/ i = 7 \/ i = 8) by lia.
    destruct Hcases as [-> | [-> | [-> | [-> | [-> | [-> | [-> | [-> | ->]]]]]]]].
    + exists (chr "A"), (chr "1"). simpl. auto 10.
    + exists (chr "B"), (chr "1"). simpl. auto 10.
    + exists (chr "C"), (chr "1"). simpl. auto 10.
    + exists (chr "A"), (chr "2"). simpl. auto 10.
    + exists (chr "B"), (chr "2"). simpl. auto 10.
    + exists (chr "C"), (chr "2"). simpl. auto 10.
    + exists (chr "A"), (chr "3"). simpl. auto 10.
    + exists (chr "B"), (chr "3"). simpl. auto 10.
    + exists (chr "C"), (chr "3"). simpl. auto 10.
Qed.

Lemma grid_to_index_names_witness :
  Console.grid_to_index (lit "2b") = Console.grid_to_index (lit "b2") /\
  Console.grid_to_index (lit "B2") = Console.grid_to_index (lit "b2").
Proof.
  destruct (grid_to_index_names (chr "b") (chr "2")
              ltac:(simpl; auto 10) ltac:(simpl; auto 10)) as (H1 & H2 & _).
  split; [exact H1 | exact H2].
Defined.

(** A line typed on a constructed state whose game goes on is refused as
    coordinates, or names a cell, on which the move goes through or the
    cell is taken. *)
Lemma console_line (gs : GameState) (line : str) :
  grid_ok (cells (grid gs)) -> consistent gs -> game_over gs = false ->
  match Console.grid_to_index (Console.strip line) with
  | Raise e => e = ValueError
  | Ok index =>
      (exists move, make_move_to gs index = Ok move) \/
      make_move_to gs index = Raise InvalidMove
  end.
Proof.
  intros Hg Hc Hover.
  destruct (Console.grid_to_index (Console.strip line)) as [index | e] eqn:E;
    [| exact (grid_to_index_Raise _ _ E)].
  apply grid_to_index_range in E.
  assert (Hlt : (Z.to_nat index < List.length (cells (grid gs)))%nat)
    by (destruct (grid_ok_length _ Hg); lia).
  destruct (nth_error (cells (grid gs)) (Z.to_nat index)) as [c |] eqn:Hn;
    [| apply nth_error_None in Hn; lia].
  destruct (char_eqb c c_space) eqn:Hsp.
  - apply N.eqb_eq in Hsp. subst c. left. eexists.
    apply make_move_to_space;
      [exact Hg | exact Hc | exact (game_over_false _ Hover) | lia | exact Hn].
  - right. unfold make_move_to.
    rewrite (getitem_of_nth _ _ _ (proj1 E) Hn). cbn [bind].
    rewrite Hsp. reflexivity.
Qed.

Lemma console_refused (mark : Mark) (gs : GameState) (line : str) (rest : list str) :
  grid_ok (cells (grid gs)) -> consistent gs -> game_over gs = false ->
  (forall move, ~ Console.accepted gs line move) ->
  Console.get_move mark gs (line :: rest) =
  let '(o, unread, seen) := Console.get_move mark gs rest in
  (o, unread, Console.refusal mark line ++ seen).
Proof.
  intros Hg Hc Hover Hno.
  pose proof (console_line gs line Hg Hc Hover) as Hline.
  cbn [Console.get_move]. rewrite Hover. cbn [negb].
  unfold Console.refusal.
  destruct (Console.grid_to_index (Console.strip line)) as [index | e] eqn:E.
  - destruct Hline as [[move Hm] | Hm].
    + exfalso. apply (Hno move). exists index. split; [exact E | exact Hm].
    + rewrite Hm. destruct (Console.get_move mark gs rest) as [[o unread] seen].
      reflexivity.
  - subst e. destruct (Console.get_move mark gs rest) as [[o unread] seen].
    reflexivity.
Qed.

Lemma console_accepted (mark : Mark) (gs : GameState) (line : str) (rest : list str)
    (move : Move) :
  game_over gs = false -> Console.accepted gs line move ->
  Console.get_move mark gs (line :: rest)
    = (Console.Returned (Some move), rest, [Console.Prompted mark]).
Proof.
  intros Hover (index & E & Hm).
  cbn [Console.get_move]. rewrite Hover. cbn [negb]. rewrite E, Hm. reflexivity.
Qed.

(** X17.  [ConsolePlayer.get_move] on a constructed state.  Once the game
    is over it returns [None] and reads nothing.  While the game goes on,
    each line that is no coordinates of an empty cell costs a prompt and
    one message, the first line that names an empty cell gives the move
    there and leaves the later lines unread, and without such a line the
    loop ends only with the input; no exception leaves the loop. *)
Theorem console_get_move (mark : Mark) (gs : GameState) (inputs : list str) :
  grid_ok (cells (grid gs)) -> consistent gs ->
  (game_over gs = true ->
   Console.get_move mark gs inputs = (Console.Returned None, inputs, [])) /\
  (game_over gs = false ->
   (forall refused line rest move,
      inputs = refused ++ line :: rest ->
      (forall l, In l refused -> forall m, ~ Console.accepted gs l m) ->
      Console.accepted gs line move ->
      Console.get_move mark gs inputs
        = (Console.Returned (Some move), rest,
           flat_map (Console.refusal mark) refused ++ [Console.Prompted mark])) /\
   ((forall l, In l inputs -> forall m, ~ Console.accepted gs l m) ->
    Console.get_move mark gs inputs
      = (Console.EndOfInput, [],
         flat_map (Console.refusal mark) inputs ++ [Console.Prompted mark])) /\
   (forall e, fst (fst (Console.get_move mark gs inputs)) <> Console.Raised e)).
Proof.
  intros Hg Hc. split.
  - intros Hover. destruct inputs; cbn [Console.get_move]; rewrite Hover;
      reflexivity.
  - intros Hover. split; [| split].
    + intros refused. revert inputs.
      induction refused as [| l refused IH]; intros inputs line rest move -> Hno Hacc.
      * exact (console_accepted mark gs line rest move Hover Hacc).
      * cbn [app flat_map].
        rewrite (console_refused mark gs l _ Hg Hc Hover (Hno l (or_introl eq_refl))).
        rewrite (IH _ line rest move eq_refl
                   (fun l' Hl' => Hno l' (or_intror Hl')) Hacc).
        rewrite <- app_assoc. reflexivity.
    + induction inputs as [| l inputs IH]; intros Hno.
      * cbn [Console.get_move]. rewrite Hover. reflexivity.
      * cbn [flat_map].
        rewrite (console_refused mark gs l _ Hg Hc Hover (Hno l (or_introl eq_refl))).
        rewrite (IH (fun l' Hl' => Hno l' (or_intror Hl'))).
        rewrite <- app_assoc. reflexivity.
    + induction inputs as [| l inputs IH]; intros e.
      * cbn [Console.get_move]. rewrite Hover. discriminate.
      * pose proof (console_line gs l Hg Hc Hover) as Hline.
        cbn [Console.get_move]. rewrite Hover. cbn [negb].
        destruct (Console.grid_to_index (Console.strip l)) as [index | e'].
        -- destruct Hline as [[move Hm] | Hm]; rewrite Hm; [discriminate |].
           destruct (Console.get_move mark gs inputs) as [[o unread] seen].
           exact (IH e).
        -- subst e'.
           destruct (Console.get_move mark gs inputs) as [[o unread] seen].
           exact (IH e).
Qed.

Lemma console_get_move_witness :
  Console.get_move CROSS (initial CROSS) [lit "D4"; lit " b2 "; lit "A1"]
  = (Console.Returned (Some (opening_move CROSS 4)), [lit "A1"],
     [Console.Prompted CROSS; Console.Printed Console.bad_coordinates;
      Console.Prompted CROSS]).
Proof.
  destruct (console_get_move CROSS (initial CROSS)
              [lit "D4"; lit " b2 "; lit "A1"]
              (plain_grid_ok _ (proj1 (well_formed_initial CROSS)))
              (proj2 (well_formed_initial CROSS))) as [_ Hon].
  destruct (Hon eq_refl) as (Hfirst & _ & _).
  apply (Hfirst [lit "D4"] (lit " b2 ") [lit "A1"] (opening_move CROSS 4) eq_refl).
  - intros l [<- | []] m (index & E & _). vm_compute in E. discriminate E.
  - exists 4. split; vm_compute; reflexivity.
Defined.

(** ** The console renderer *)

Lemma nth_error_update {A : Type} (l : list A) (j i : nat) (v : A) :
  (j < List.length l)%nat ->
  nth_error (firstn j l ++ v :: skipn (S j) l) i
    = if (i =? j)%nat then Some v else nth_error l i.
Proof.
  revert j i. induction l as [| a l IH]; intros j i Hj; [simpl in Hj; lia |].
  destruct j as [| j]; destruct i as [| i]; try reflexivity.
  cbn [firstn skipn app nth_error List.length] in *.
  rewrite IH by lia. reflexivity.
Qed.

Lemma length_update {A : Type} (l : list A) (j : nat) (v : A) :
  (j < List.length l)%nat ->
  List.length (firstn j l ++ v :: skipn (S j) l) = List.length l.
Proof.
  intros Hj. rewrite length_app, length_firstn. cbn [List.length].
  rewrite length_skipn. lia.
Qed.

Lemma list_index_Ok (l : list str) (i : Z) (j : nat) :
  Renderer.list_index l i = Ok j ->
  (j < List.length l)%nat /\
  j = Z.to_nat (if i <? 0 then i + Z.of_nat (List.length l) else i).
Proof.
  unfold Renderer.list_index. cbv zeta.
  destruct (i <? 0) eqn:Hneg;
    match goal with
    | |- context [(?a <? 0) || (?n <=? ?b)] =>
        destruct (Z.ltb_spec a 0); destruct (Z.leb_spec n b)
    end; cbn [orb]; intros [= <-]; split; lia.
Qed.

Lemma list_index_in_range (l : list str) (i : Z) :
  0 <= i < Z.of_nat (List.length l) ->
  Renderer.list_index l i = Ok (Z.to_nat i).
Proof.
  intros Hi. unfold Renderer.list_index. cbv zeta.
  destruct (Z.ltb_spec i 0); [lia |].
  destruct (Z.ltb_spec i 0); [lia |].
  destruct (Z.leb_spec (Z.of_nat (List.length l)) i); [lia | reflexivity].
Qed.

Lemma list_index_outside (l : list str) (i : Z) :
  i < - Z.of_nat (List.length l) \/ Z.of_nat (List.length l) <= i ->
  Renderer.list_index l i = Raise IndexError.
Proof.
  intros Hi. unfold Renderer.list_index. cbv zeta.
  destruct (Z.ltb_spec i 0);
    match goal with
    | |- context [(?a <? 0) || (?n <=? ?b)] =>
        destruct (Z.ltb_spec a 0); destruct (Z.leb_spec n b)
    end; cbn [orb]; first [reflexivity | lia].
Qed.

(** One turn of the loop of [print_blinking]. *)
Lemma blink_cells_step (cs : list str) (p : Z) (rest : list Z) :
  match Renderer.list_index cs p with
  | Ok j =>
      exists old,
        nth_error cs j = Some old /\
        Renderer.blink_cells cs (p :: rest)
          = Renderer.blink_cells
              (firstn j cs ++ Renderer.blink old :: skipn (S j) cs) rest
  | Raise e => Renderer.blink_cells cs (p :: rest) = Raise e
  end.
Proof.
  cbn [Renderer.blink_cells]. unfold Renderer.list_getitem, Renderer.list_setitem.
  destruct (Renderer.list_index cs p) as [j | e] eqn:E; cbn [bind];
    [| reflexivity].
  apply list_index_Ok in E. destruct E as [Hj _].
  destruct (nth_error cs j) as [old |] eqn:Hn;
    [| apply nth_error_None in Hn; lia].
  exists old. split; reflexivity.
Qed.

Lemma blink_cells_length (positions : list Z) (cs cs' : list str) :
  Renderer.blink_cells cs positions = Ok cs' ->
  List.length cs' = List.length cs.
Proof.
  revert cs. induction positions as [| p rest IH]; intros cs H.
  - injection H as <-. reflexivity.
  - pose proof (blink_cells_step cs p rest) as Hstep.
    destruct (Renderer.list_index cs p) as [j | e] eqn:E; [| congruence].
    destruct Hstep as (old & _ & Hstep). rewrite Hstep in H.
    apply IH in H. rewrite H. apply length_update.
    apply (list_index_Ok _ _ _ E).
Qed.

Lemma blink_cells_outside (positions : list Z) (cs : list str) (p : Z) :
  In p positions ->
  p < - Z.of_nat (List.length cs) \/ Z.of_nat (List.length cs) <= p ->
  Renderer.blink_cells cs positions = Raise IndexError.
Proof.
  revert cs. induction positions as [| q rest IH]; intros cs Hin Hp;
    [contradiction |].
  pose proof (blink_cells_step cs q rest) as Hstep.
  destruct (Renderer.list_index cs q) as [j | e] eqn:E.
  - destruct Hstep as (old & _ & Hstep). rewrite Hstep.
    destruct Hin as [-> | Hin];
      [rewrite (list_index_outside _ _ Hp) in E; discriminate |].
    apply IH; [exact Hin |].
    rewrite length_update by apply (list_index_Ok _ _ _ E). exact Hp.
  - rewrite Hstep. f_equal.
    unfold Renderer.list_index in E. cbv zeta in E.
    destruct (_ || _) in E; congruence.
Qed.

Lemma blink_cells_shown (positions : list Z) (cs : list str) :
  (forall p, In p positions -> 0 <= p < Z.of_nat (List.length cs)) ->
  NoDup positions ->
  exists shown,
    Renderer.blink_cells cs positions = Ok shown /\
    List.length shown = List.length cs /\
    forall i c, nth_error cs i = Some c ->
      nth_error shown i
        = Some (if existsb (Z.eqb (Z.of_nat i)) positions
                then Renderer.blink c else c).
Proof.
  revert cs. induction positions as [| p rest IH]; intros cs Hr Hnd.
  - exists cs. split; [reflexivity |]. split; [reflexivity |].
    intros i c Hc. exact Hc.
  - pose proof (blink_cells_step cs p rest) as Hstep.
    assert (Hp : 0 <= p < Z.of_nat (List.length cs)) by (apply Hr; left; reflexivity).
    rewrite (list_index_in_range _ _ Hp) in Hstep.
    destruct Hstep as (old & Hold & Hstep).
    assert (Hj : (Z.to_nat p < List.length cs)%nat) by lia.
    inversion Hnd as [| ? ? Hnotin Hnd']; subst.
    destruct (IH (firstn (Z.to_nat p) cs ++ Renderer.blink old
                    :: skipn (S (Z.to_nat p)) cs)) as (shown & Hb & Hl & Hs).
    + intros q Hq. rewrite length_update by exact Hj. apply Hr. right. exact Hq.
    + exact Hnd'.
    + exists shown. split; [rewrite Hstep; exact Hb |].
      split; [rewrite Hl; apply length_update; exact Hj |].
      intros i c Hc. cbn [existsb].
      specialize (Hs i). rewrite nth_error_update in Hs by exact Hj.
      destruct (Nat.eqb_spec i (Z.to_nat p)) as [Heq | Hne].
      * subst i. rewrite Hold in Hc. injection Hc as <-.
        rewrite (Hs _ eq_refl).
        replace (Z.of_nat (Z.to_nat p)) with p by lia.
        rewrite Z.eqb_refl. cbn [orb].
        destruct (existsb (Z.eqb p) rest) eqn:Hex; [| reflexivity].
        apply existsb_exists in Hex. destruct Hex as (q & Hq & Heq).
        apply Z.eqb_eq in Heq. subst q. contradiction.
      * rewrite (Hs _ Hc).
        destruct (Z.eqb_spec (Z.of_nat i) p) as [Heq | _]; [lia |].
        reflexivity.
Qed.

(** X18.  [print_blinking] prints the grid with the cells at the given
    positions wrapped in the blink codes and every other cell as it is,
    when the positions are distinct indices of cells; a position outside
    the cells, from either end, ends it with [IndexError] and nothing is
    printed. *)
Theorem print_blinking_spec (out : str) (cells : str) (positions : list Z) :
  ((forall p, In p positions -> 0 <= p < len cells) -> NoDup positions ->
   exists shown,
     List.length shown = List.length cells /\
     (forall i c, nth_error cells i = Some c ->
        nth_error shown i
          = Some (if existsb (Z.eqb (Z.of_nat i)) positions
                  then Renderer.blink [c] else [c])) /\
     Renderer.print_blinking out cells positions
       = Renderer.print_solid out shown) /\
  (forall p, In p positions -> p < - len cells \/ len cells <= p ->
     Renderer.print_blinking out cells positions = Raise IndexError).
Proof.
  assert (Hlen : List.length (Renderer.list_of cells) = List.length cells)
    by apply length_map.
  split.
  - intros Hr Hnd.
    destruct (blink_cells_shown positions (Renderer.list_of cells))
      as (shown & Hb & Hl & Hs).
    + intros p Hp. rewrite Hlen. exact (Hr p Hp).
    + exact Hnd.
    + exists shown. split; [congruence |]. split.
      * intros i c Hc. apply Hs. unfold Renderer.list_of.
        rewrite nth_error_map, Hc. reflexivity.
      * unfold Renderer.print_blinking. rewrite Hb. reflexivity.
  - intros p Hp Hout. unfold Renderer.print_blinking.
    rewrite (blink_cells_outside positions _ p Hp); [reflexivity |].
    rewrite Hlen. exact Hout.
Qed.

Lemma print_blinking_spec_witness :
  Renderer.print_blinking [] (lit "XXXOO    ") [0; 1; 9] = Raise IndexError.
Proof.
  destruct (print_blinking_spec [] (lit "XXXOO    ") [0; 1; 9]) as [_ Hout].
  apply (Hout 9); [simpl; auto | right; vm_compute; discriminate].
Defined.

Lemma format_template_short (cells : list str) :
  (List.length cells < 9)%nat ->
  Renderer.format Renderer.template cells = Raise IndexError.
Proof.
  intros Hl.
  do 9 (destruct cells as [| ? cells]; [reflexivity |]).
  simpl in Hl. lia.
Qed.

Lemma format_template_nine (cells : list str) :
  (9 <= List.length cells)%nat ->
  exists text,
    Renderer.format Renderer.template cells = Ok text /\
    Renderer.format Renderer.template (firstn 9 cells) = Ok text.
Proof.
  intros Hl.
  do 9 (destruct cells as [| ? cells]; [simpl in Hl; lia |]).
  eexists. split; reflexivity.
Qed.

Lemma print_solid_Ok (out : str) (cells : list str) :
  (9 <= List.length cells)%nat ->
  exists text, Renderer.print_solid out cells = Ok (out ++ text ++ [LF]).
Proof.
  intros Hl. destruct (format_template_nine cells Hl) as (text & H & _).
  exists text. unfold Renderer.print_solid. rewrite H. reflexivity.
Qed.

(** X19.  [print_solid] needs nine cells: with fewer it ends with
    [IndexError] and prints nothing; with nine or more it prints a text
    and a newline after what is on the screen, and the cells past the
    ninth do not show.  The text tells the grid: two grids of characters
    printed alike have the same first nine cells. *)
Theorem print_solid_spec (out : str) :
  (forall cells, (List.length cells < 9)%nat ->
     Renderer.print_solid out cells = Raise IndexError) /\
  (forall cells, (9 <= List.length cells)%nat ->
     (exists text, Renderer.print_solid out cells = Ok (out ++ text ++ [LF])) /\
     Renderer.print_solid out (firstn 9 cells) = Renderer.print_solid out cells) /\
  (forall cs cs' : str,
     (9 <= List.length cs)%nat -> (9 <= List.length cs')%nat ->
     Renderer.print_solid out (Renderer.list_of cs)
       = Renderer.print_solid out (Renderer.list_of cs') ->
     firstn 9 cs = firstn 9 cs').
Proof.
  split; [| split].
  - intros cells Hl. unfold Renderer.print_solid.
    rewrite (format_template_short cells Hl). reflexivity.
  - intros cells Hl. split; [exact (print_solid_Ok out cells Hl) |].
    destruct (format_template_nine cells Hl) as (text & H & H9).
    unfold Renderer.print_solid. rewrite H, H9. reflexivity.
  - intros cs cs' Hl Hl' H.
    do 9 (destruct cs as [| ? cs]; [simpl in Hl; lia |]).
    do 9 (destruct cs' as [| ? cs']; [simpl in Hl'; lia |]).
    unfold Renderer.print_solid, Renderer.print in H.
    cbn in H. injection H as H. apply app_inv_head in H.
    cbn [firstn]. injection H as -> -> -> -> -> -> -> -> ->. reflexivity.
Qed.

Lemma winning_cells_cases (gs : GameState) :
  (winner gs = None /\ winning_cells gs = []) \/
  (exists m, winner gs = Some m /\ In (winning_cells gs) WINNING_LINES).
Proof.
  unfold winner, winning_cells, WINNING_PATTERNS, Marks.
  cbn [for_return].
  repeat (match goal with
          | |- context [if pattern_matches ?p ?m ?s then _ else _] =>
              destruct (pattern_matches p m s); cbv beta iota;
              [ right; eexists; split; [reflexivity | vm_compute; auto 10] | ]
          end).
  left. split; reflexivity.
Qed.

Lemma winning_line_positions (l : list Z) :
  In l WINNING_LINES -> NoDup l /\ forall p, In p l -> 0 <= p < 9.
Proof.
  intros Hl. simpl in Hl.
  repeat (destruct Hl as [<- | Hl];
    [ split;
      [ repeat constructor; simpl; intuition discriminate
      | intros p Hp; simpl in Hp;
        repeat (destruct Hp as [<- | Hp]; [lia |]); contradiction ] |]).
  contradiction.
Qed.

(** On a state with a valid grid [render] does not fail. *)
Lemma render_Ok (format_mark : Mark -> str) (out : str) (gs : GameState) :
  grid_ok (cells (grid gs)) ->
  exists text, Renderer.render format_mark out gs = Ok text.
Proof.
  intros Hg.
  assert (Hlen : (9 <= List.length (cells (grid gs)))%nat)
    by (destruct (grid_ok_length _ Hg); lia).
  assert (Hlist : List.length (Renderer.list_of (cells (grid gs)))
                  = List.length (cells (grid gs))) by apply length_map.
  unfold Renderer.render.
  destruct (winning_cells_cases gs) as [[Hw _] | (m & Hw & Hc)]; rewrite Hw.
  - destruct (print_solid_Ok (Renderer.clear_screen out)
                (Renderer.list_of (cells (grid gs)))) as (text & Hp); [lia |].
    rewrite Hp. cbn [bind]. destruct (tie gs); eexists; reflexivity.
  - destruct (winning_line_positions _ Hc) as [Hnd Hr].
    destruct (blink_cells_shown (winning_cells gs)
                (Renderer.list_of (cells (grid gs))))
      as (shown & Hb & Hl & _); [intros p Hp; specialize (Hr p Hp); lia | exact Hnd |].
    destruct (print_solid_Ok (Renderer.clear_screen out) shown)
      as (text & Hp); [lia |].
    unfold Renderer.print_blinking. rewrite Hb. cbn [bind]. rewrite Hp.
    eexists. reflexivity.
Qed.

(** X20.  [render] on a state with a valid grid never fails.  It clears
    the screen and prints the grid after it: the cells of the winning
    line in the blink codes and every other cell as it is, so no cell
    blinks while nobody has won.  Then comes the line of the winner, the
    line of the tie, or nothing while the game goes on. *)
Theorem render_constructed (format_mark : Mark -> str) (out : str)
    (gs : GameState) :
  grid_ok (cells (grid gs)) ->
  exists shown board,
    List.length shown = List.length (cells (grid gs)) /\
    (forall i c, nth_error (cells (grid gs)) i = Some c ->
       nth_error shown i
         = Some (if existsb (Z.eqb (Z.of_nat i)) (winning_cells gs)
                 then Renderer.blink [c] else [c])) /\
    Renderer.print_solid (out ++ Renderer.ESC :: lit "c") shown = Ok board /\
    Renderer.render format_mark out gs
      = Ok (board ++
            match winner gs with
            | Some w =>
                format_mark w ++ lit " wins " ++ [Renderer.party_popper] ++ [LF]
            | None =>
                if tie gs
                then lit "No one wins this time " ++ [Renderer.neutral_face] ++ [LF]
                else []
            end).
Proof.
  intros Hg.
  assert (Hlen : (9 <= List.length (cells (grid gs)))%nat)
    by (destruct (grid_ok_length _ Hg); lia).
  assert (Hlist : List.length (Renderer.list_of (cells (grid gs)))
                  = List.length (cells (grid gs))) by apply length_map.
  unfold Renderer.render, Renderer.clear_screen, Renderer.print_no_end.
  destruct (winning_cells_cases gs) as [[Hw Hc] | (m & Hw & Hc)]; rewrite Hw.
  - rewrite Hc.
    destruct (print_solid_Ok (out ++ Renderer.ESC :: lit "c")
                (Renderer.list_of (cells (grid gs)))) as (text & Hp);
      [lia |].
    exists (Renderer.list_of (cells (grid gs))). eexists.
    split; [exact Hlist |]. split; [| split; [exact Hp |]].
    + intros i c Hn. unfold Renderer.list_of. rewrite nth_error_map, Hn.
      reflexivity.
    + rewrite Hp. cbn [bind]. destruct (tie gs); [| rewrite app_nil_r];
        reflexivity.
  - destruct (winning_line_positions _ Hc) as [Hnd Hr].
    destruct (blink_cells_shown (winning_cells gs)
                (Renderer.list_of (cells (grid gs))))
      as (shown & Hb & Hl & Hs); [intros p Hp; specialize (Hr p Hp); lia | exact Hnd |].
    destruct (print_solid_Ok (out ++ Renderer.ESC :: lit "c") shown)
      as (text & Hp); [lia |].
    exists shown. eexists.
    split; [congruence |]. split; [| split; [exact Hp |]].
    + intros i c Hn. apply Hs. unfold Renderer.list_of.
      rewrite nth_error_map, Hn. reflexivity.
    + unfold Renderer.print_blinking. rewrite Hb. cbn [bind]. rewrite Hp.
      cbn [bind]. unfold Renderer.print. rewrite <- !app_assoc. reflexivity.
Qed.

Lemma render_constructed_witness :
  exists shown board,
    nth_error shown 0 = Some (Renderer.blink [c_X]) /\
    nth_error shown 3 = Some [c_O] /\
    Renderer.render (fun m => Mark_value m) [] (mkGameState (mkGrid (lit "XXXOO    ")) CROSS)
      = Ok (board ++ lit "X wins " ++ [Renderer.party_popper] ++ [LF]).
Proof.
  destruct (render_constructed (fun m => Mark_value m) []
              (mkGameState (mkGrid (lit "XXXOO    ")) CROSS) eq_refl)
    as (shown & board & _ & Hs & _ & Hr).
  exists shown, board.
  split; [exact (Hs 0%nat c_X eq_refl) |].
  split; [exact (Hs 3%nat c_O eq_refl) | exact Hr].
Defined.

(** ** The game at the console *)

(** On a constructed state whose game goes on, [get_move] ends with the
    input, all of it read, or returns a move of [make_move_to] after at
    least one line. *)
Lemma console_get_move_outcome (mark : Mark) (gs : GameState) (inputs : list str) :
  grid_ok (cells (grid gs)) -> consistent gs -> game_over gs = false ->
  exists o unread seen,
    Console.get_move mark gs inputs = (o, unread, seen) /\
    ((o = Console.EndOfInput /\ unread = []) \/
     (exists move index used,
        o = Console.Returned (Some move) /\
        make_move_to gs index = Ok move /\
        used <> [] /\ inputs = used ++ unread)).
Proof.
  intros Hg Hc Hover. induction inputs as [| line rest IH].
  - cbn [Console.get_move]. rewrite Hover. cbn [negb].
    do 3 eexists. split; [reflexivity |]. left. split; reflexivity.
  - pose proof (console_line gs line Hg Hc Hover) as Hline.
    assert (Hagain :
      forall text,
      exists o unread seen,
        (let '(o, unread, seen) := Console.get_move mark gs rest in
         (o, unread, Console.Prompted mark :: Console.Printed text :: seen))
        = (o, unread, seen) /\
        ((o = Console.EndOfInput /\ unread = []) \/
         (exists move index used,
            o = Console.Returned (Some move) /\
            make_move_to gs index = Ok move /\
            used <> [] /\ line :: rest = used ++ unread))).
    { intros text. destruct IH as (o & unread & seen & E & Hcases).
      rewrite E. do 3 eexists. split; [reflexivity |].
      destruct Hcases as [Hend | (move & index & used & Ho & Hm & _ & Hin)];
        [left; exact Hend | right].
      exists move, index, (line :: used).
      split; [exact Ho |]. split; [exact Hm |].
      split; [discriminate | rewrite Hin; reflexivity]. }
    cbn [Console.get_move]. rewrite Hover. cbn [negb].
    destruct (Console.grid_to_index (Console.strip line)) as [index | e].
    + destruct Hline as [[move Hm] | Hm]; rewrite Hm; [| apply Hagain].
      do 3 eexists. split; [reflexivity |]. right.
      exists move, index, [line].
      split; [reflexivity |]. split; [exact Hm |].
      split; [discriminate | reflexivity].
    + subst e. apply Hagain.
Qed.

Lemma current_player_mark (self : Session.TicTacToe) (p1 p2 : Mark)
    (gs : GameState) :
  Session.TicTacToe_new p1 p2 = Ok self ->
  Session.get_current_player self gs = current_mark gs.
Proof.
  unfold Session.TicTacToe_new, Session.get_current_player.
  destruct (Mark_eqb p1 p2) eqn:E; [discriminate |]. intros [= <-].
  cbn [Session.player1 Session.player2].
  destruct (current_mark gs), p1, p2; try reflexivity; discriminate E.
Qed.

Lemma session_play_loop_ends (format_mark : Mark -> str)
    (self : Session.TicTacToe) (p1 p2 : Mark) (fuel : nat) :
  Session.TicTacToe_new p1 p2 = Ok self ->
  forall (gs : GameState) (inputs : list str),
    grid_ok (cells (grid gs)) -> consistent gs ->
    (List.length inputs < fuel)%nat ->
    exists e unread trace used,
      Session.play_loop format_mark self fuel gs inputs = Some (e, unread, trace) /\
      inputs = used ++ unread /\
      match e with
      | Session.Finished final =>
          game_over final = true /\ grid_ok (cells (grid final)) /\
          consistent final /\ starting_mark final = starting_mark gs
      | Session.InputEnded last =>
          game_over last = false /\ unread = [] /\
          starting_mark last = starting_mark gs
      | Session.Failed _ => False
      end.
Proof.
  intros Hself. induction fuel as [| fuel IH]; intros gs inputs Hg Hc Hfuel;
    [lia |].
  destruct (render_Ok format_mark [] gs Hg) as (text & Hrender).
  cbn [Session.play_loop]. rewrite Hrender.
  destruct (game_over gs) eqn:Hover.
  - do 3 eexists. exists []. split; [reflexivity |]. split; [reflexivity |].
    split; [exact Hover |]. split; [exact Hg |]. split; [exact Hc | reflexivity].
  - rewrite (current_player_mark self p1 p2 gs Hself).
    unfold Session.make_move. rewrite Mark_eqb_refl.
    destruct (console_get_move_outcome (current_mark gs) gs inputs Hg Hc Hover)
      as (o & unread & seen & E & Hcases).
    rewrite E.
    destruct Hcases as [[-> ->] | (move & index & used & -> & Hm & Hused & Hin)].
    + do 3 eexists. exists inputs. split; [reflexivity |].
      split; [rewrite app_nil_r; reflexivity |].
      split; [exact Hover |]. split; reflexivity.
    + destruct (make_move_to_inv gs index move Hg Hm) as (_ & -> & Hg' & Hc').
      cbn [after_state].
      destruct (IH (moved gs (position (cells (grid gs)) index)) unread Hg' Hc')
        as (e & unread' & trace & used' & Hloop & Hin' & He).
      * subst inputs. rewrite length_app in Hfuel.
        destruct used; [congruence | simpl in Hfuel; lia].
      * cbv zeta. rewrite Hloop. do 3 eexists. exists (used ++ used').
        split; [reflexivity |].
        split; [rewrite <- app_assoc, <- Hin'; exact Hin |].
        exact He.
Qed.

(** X21.  A game between two console players with different marks, as
    [cli.main] runs it.  Whatever is typed, [play] comes to an end within
    one round more than there are lines: it returns on a state whose game
    is over, or [input] meets the end of the input, all lines read, while
    the game still goes on.  No exception leaves the loop, every call of
    [render] succeeds, and the lines are read in order. *)
Theorem console_play_ends (format_mark : Mark -> str) (p1 p2 : Mark)
    (self : Session.TicTacToe) (sm : Mark) (inputs : list str)
    (fuel : nat) :
  Session.TicTacToe_new p1 p2 = Ok self ->
  (List.length inputs < fuel)%nat ->
  exists e unread trace used,
    Session.play format_mark self fuel sm inputs
      = Some (e, unread, trace) /\
    inputs = used ++ unread /\
    match e with
    | Session.Finished final =>
        game_over final = true /\
        GameState_of (cells (grid final)) sm = Ok final
    | Session.InputEnded last => game_over last = false /\ unread = []
    | Session.Failed _ => False
    end.
Proof.
  intros Hself Hfuel. unfold Session.play.
  pose proof (well_formed_initial sm) as Hwf.
  assert (Hof : GameState_of (repeat c_space 9) sm = Ok (initial sm))
    by exact (well_formed_GameState_of _ Hwf).
  rewrite Hof.
  destruct Hwf as [Hp Hc].
  destruct (session_play_loop_ends format_mark self p1 p2 fuel Hself
              (initial sm) inputs (plain_grid_ok _ Hp) Hc Hfuel)
    as (e & unread & trace & used & Hloop & Hin & He).
  exists e, unread, trace, used. split; [exact Hloop |]. split; [exact Hin |].
  destruct e as [final | err | last]; [| exact He |].
  - destruct He as (Hover & Hg & Hcons & Hsm). split; [exact Hover |].
    apply GameState_of_Ok. split; [exact Hg |]. split; [exact Hcons |].
    destruct final as [[cs] sm']. cbn in Hsm |- *. rewrite Hsm. reflexivity.
  - destruct He as (Hover & Hun & _). split; assumption.
Qed.

Lemma console_play_ends_witness :
  exists e unread trace used,
    Session.play (fun m => Mark_value m) (Session.mkTicTacToe CROSS NAUGHT) 7 CROSS
      [lit "A1"; lit "B1"; lit "a2"; lit "2b"; lit "A3"; lit "C3"]
      = Some (e, unread, trace) /\
    [lit "A1"; lit "B1"; lit "a2"; lit "2b"; lit "A3"; lit "C3"] = used ++ unread /\
    match e with
    | Session.Finished final =>
        game_over final = true /\
        GameState_of (cells (grid final)) CROSS = Ok final
    | Session.InputEnded last => game_over last = false /\ unread = []
    | Session.Failed _ => False
    end.
Proof.
  apply (console_play_ends (fun m => Mark_value m) CROSS NAUGHT
           (Session.mkTicTacToe CROSS NAUGHT) CROSS
           [lit "A1"; lit "B1"; lit "a2"; lit "2b"; lit "A3"; lit "C3"] 7
           eq_refl).
  simpl. lia.
Defined.
